(** * Nachos file system (filesys.cc, directory.cc): directory tables, path
    resolution, Create / Remove / List and the open-file table.

    The development is a shallow embedding of [src/code/filesys/filesys.cc]
    (which also carries directory.cc).  C strings are [string]s, [int]s are
    [Z], the directory table is a [list] of entries, the disk is a record of
    finite maps keyed by sector number.  Behaviour that the C++ standard
    leaves undefined (writing past a stack buffer, reading an uninitialised
    local, calling [strlen] on the null pointer that [strtok] returned,
    deleting an object twice) is the value [None] of the option monad, and
    so is a run that ends in the assertion of the block device when
    [new OpenFile] is given a negative number for a sector. *)

From Stdlib Require Import Ascii String ZArith Lia.
From stdpp Require Import base option list strings gmap.

Local Open Scope Z_scope.

(** ** C strings *)

Module CStr.

(** [strn n s]: the first [n] characters of [s]; what [strncmp (_, _, n)]
    looks at and what [strncpy (_, s, n)] copies (a [string] has no embedded
    NUL, so the NUL padding of strncpy is not visible). *)
Fixpoint strn (n : nat) (s : string) : string :=
  match n, s with
  | O, _ => EmptyString
  | S _, EmptyString => EmptyString
  | S n', String c s' => String c (strn n' s')
  end.

(** [p + k] for a [char *p]: the string that starts [k] characters further,
    undefined once the pointer moves past the terminating NUL. *)
Fixpoint advance (k : nat) (s : string) : option string :=
  match k, s with
  | O, _ => Some s
  | S _, EmptyString => None
  | S k', String _ s' => advance k' s'
  end.

(** [strncmp (a, b, n) == 0]. *)
Definition strncmp_eq (n : nat) (a b : string) : bool :=
  bool_decide (strn n a = strn n b).

Definition is_slash (c : ascii) : bool := bool_decide (c = "/"%char).

Definition snoc_char (s : string) (c : ascii) : string :=
  String.append s (String c EmptyString).

(** The successive results of [strtok (temp, "/")], [strtok (NULL, "/")],
    ... on a copy of [s]: the maximal non-empty runs of characters other
    than '/'.  [cur] is the token being read, if any. *)
Fixpoint strtok_all (cur : option string) (s : string) : list string :=
  match s with
  | EmptyString => match cur with Some t => [t] | None => [] end
  | String c s' =>
      if is_slash c
      then match cur with
           | Some t => t :: strtok_all None s'
           | None => strtok_all None s'
           end
      else strtok_all (Some (snoc_char (default EmptyString cur) c)) s'
  end.

Definition tokens (s : string) : list string := strtok_all None s.

Definition strlen (s : string) : Z := Z.of_nat (String.length s).

End CStr.

Import CStr.

(** ** Collaborators that filesys.cc only consumes *)

(** Modelled from the spec: the free-sector bitmap (bitmap.cc and pbitmap.cc
    are not part of the sources).  The spec gives it as the set of sector
    numbers in use with "mark one sector used, find-and-mark an unused
    sector, clear a sector"; bit [i] of the list is sector [i], the size of
    the list is the number of sectors of the device.  A number that is not
    a sector of the device is not in the set, and marking or clearing it
    changes nothing. *)
Module Bitmap.

Abbreviation t := (list bool).

Definition Test (m : t) (which : Z) : bool :=
  if decide (0 <= which) then default false (m !! Z.to_nat which) else false.

Definition Mark (m : t) (which : Z) : t :=
  if decide (0 <= which) then <[Z.to_nat which := true]> m else m.

Definition Clear (m : t) (which : Z) : t :=
  if decide (0 <= which) then <[Z.to_nat which := false]> m else m.

Fixpoint find_clear (m : t) (i : Z) : Z :=
  match m with
  | [] => -1
  | b :: m' => if b then find_clear m' (i + 1) else i
  end.

(** [FindAndSet]: the lowest clear bit, marked; -1 when there is none. *)
Definition FindAndSet (m : t) : Z * t :=
  let which := find_clear m 0 in
  if decide (which = -1) then (-1, m) else (which, Mark m which).

Definition NumClear (m : t) : Z :=
  Z.of_nat (length (filter (λ b, b = false) m)).

End Bitmap.

(** Modelled from the spec: the file header (filehdr.cc is not part of the
    sources).  The spec gives it as a block map that "may chain to a
    successor header", with [nextChainedHeaderSector] and
    [nextChainedHeader]; the in-memory header is therefore a finite chain of
    records. *)
#[local] Set Warnings "-register-all".
Inductive FileHeader : Type :=
  | Hdr (numBytes : Z) (dataSectors : list Z)
        (nextFileHeaderSector : Z) (nextFileHeader : option FileHeader).

Definition GetNextFileHeaderSector (h : FileHeader) : Z :=
  match h with Hdr _ _ s _ => s end.

Definition GetNextFileHeader (h : FileHeader) : option FileHeader :=
  match h with Hdr _ _ _ n => n end.

Definition hdr_dataSectors (h : FileHeader) : list Z :=
  match h with Hdr _ d _ _ => d end.

Global Instance FileHeader_inhabited : Inhabited FileHeader :=
  populate (Hdr 0 [] (-1) None).

(** What filesys.cc and directory.cc take from headers that are not in the
    sources: the name bound of directory.h, the size of one directory entry,
    and the allocation and deallocation of a header's data sectors.
    [Allocate] returns [None] for the C++ [FALSE]. *)
Class Collab := {
  FileNameMaxLen : nat;
  DirectoryEntrySize : Z;
  Allocate : Bitmap.t → Z → option (FileHeader * Bitmap.t);
  Deallocate : FileHeader → Bitmap.t → Bitmap.t
}.

(** ** directory.cc *)

Record DirectoryEntry := mkEntry {
  inUse : bool;
  sector : Z;
  name : string;
  dFlag : bool
}.

Global Instance DirectoryEntry_eq_dec : EqDecision DirectoryEntry.
Proof. solve_decision. Defined.

Definition NumDirEntries : nat := 64.

Definition emptyEntry : DirectoryEntry := mkEntry false 0 EmptyString false.

(** [Directory::Directory (size)]: zeroed storage, nothing in use. *)
Definition Directory_new (size : nat) : list DirectoryEntry :=
  replicate size emptyEntry.

Section DirectoryOps.
Context `{Collab}.

Definition entry_matches (nm : string) (e : DirectoryEntry) : bool :=
  inUse e && strncmp_eq FileNameMaxLen (name e) nm.

(** The loop of [Directory::FindIndex], from index [i] on. *)
Fixpoint FindIndex_loop (table : list DirectoryEntry) (i : Z) (nm : string) : Z :=
  match table with
  | [] => -1
  | e :: rest =>
      if entry_matches nm e then i else FindIndex_loop rest (i + 1) nm
  end.

Definition FindIndex (table : list DirectoryEntry) (nm : string) : Z :=
  FindIndex_loop table 0 nm.

Definition table_at (table : list DirectoryEntry) (i : Z) : DirectoryEntry :=
  default emptyEntry (table !! Z.to_nat i).

Definition Find (table : list DirectoryEntry) (nm : string) : Z :=
  let i := FindIndex table nm in
  if decide (i ≠ -1) then sector (table_at table i) else -1.

(** [bool Directory::GetFlag]: the [return -1] of the not-found case is
    converted to [bool], that is to [true]. *)
Definition GetFlag (table : list DirectoryEntry) (nm : string) : bool :=
  let i := FindIndex table nm in
  if decide (i ≠ -1) then dFlag (table_at table i) else true.

(** The second loop of [Directory::Add]: the first entry that is not in
    use is claimed; [None] when every entry is in use. *)
Fixpoint Add_loop (table : list DirectoryEntry) (nm : string) (newSector : Z)
    (flag : bool) : option (list DirectoryEntry) :=
  match table with
  | [] => None
  | e :: rest =>
      if negb (inUse e)
      then Some (mkEntry true newSector (strn FileNameMaxLen nm) flag :: rest)
      else cons e <$> Add_loop rest nm newSector flag
  end.

Definition Add (table : list DirectoryEntry) (nm : string) (newSector : Z)
    (flag : bool) : bool * list DirectoryEntry :=
  if decide (FindIndex table nm ≠ -1) then (false, table)
  else match Add_loop table nm newSector flag with
       | Some table' => (true, table')
       | None => (false, table)
       end.

Definition release (e : DirectoryEntry) : DirectoryEntry :=
  mkEntry false (sector e) (name e) (dFlag e).

(** [Directory::Remove]. *)
Definition Directory_Remove (table : list DirectoryEntry) (nm : string)
    : bool * list DirectoryEntry :=
  let i := FindIndex table nm in
  if decide (i = -1) then (false, table)
  else (true, <[Z.to_nat i := release (table_at table i)]> table).

(** [Directory::List]: the names printed, in table order. *)
Definition Directory_List (table : list DirectoryEntry) : list string :=
  name <$> filter (λ e, inUse e = true) table.

End DirectoryOps.

(** ** The disk *)

(** One write-back, as the journal of the disk records it. *)
Inductive DiskWrite : Type :=
  | WHeader (at_sector : Z) (h : FileHeader)
  | WDirectory (at_sector : Z) (table : list DirectoryEntry)
  | WFreeMap (m : Bitmap.t).

(** The disk as the file system sees it through its collaborators: the
    header stored in a sector, the contents of the file whose header is in
    a sector (read as directory entries, which is what [Directory::FetchFrom]
    does with the bytes), the contents of the bitmap file (header in sector
    0, kept open as [freeMapFile]), and the journal of the write-backs
    issued so far, oldest first. *)
Record Disk := mkDisk {
  headers : gmap Z FileHeader;
  fileData : gmap Z (list DirectoryEntry);
  freeMapData : Bitmap.t;
  journal : list DiskWrite
}.

Definition FreeMapSector : Z := 0.
Definition DirectorySector : Z := 1.

(** Modelled from the spec: [OpenFile::ReadAt] under [Directory::FetchFrom]
    (openfile.cc is not part of the sources): the table is overwritten with
    what the file holds from offset 0; entries the file does not reach stay
    as they were. *)
Definition FetchFrom (table stored : list DirectoryEntry) : list DirectoryEntry :=
  take (length table) stored ++ drop (length stored) table.

(** Modelled from the spec: [OpenFile::WriteAt] under [Directory::WriteBack]:
    the table replaces the contents of the file from offset 0. *)
Definition WriteBack (table stored : list DirectoryEntry) : list DirectoryEntry :=
  table ++ drop (length table) stored.

Definition stored_at (d : Disk) (s : Z) : list DirectoryEntry :=
  default [] (fileData d !! s).

(** [new OpenFile (s)], [new Directory (n)], [FetchFrom], for a number [s]
    that is not negative; where the code can hold -1 at this point, the
    number goes through [OpenFile_new] first. *)
Definition Directory_load (d : Disk) (n : nat) (s : Z) : list DirectoryEntry :=
  FetchFrom (Directory_new n) (stored_at d s).

(** [new OpenFile (s)] and [table->WriteBack]. *)
Definition Directory_store (d : Disk) (s : Z) (table : list DirectoryEntry) : Disk :=
  let now := WriteBack table (stored_at d s) in
  mkDisk (headers d) (<[s := now]> (fileData d)) (freeMapData d)
         (journal d ++ [WDirectory s table]).

(** [FileHeader::FetchFrom (s)] and [FileHeader::WriteBack (s)]. *)
Definition FileHeader_load (d : Disk) (s : Z) : FileHeader :=
  default inhabitant (headers d !! s).

Definition FileHeader_store (d : Disk) (s : Z) (h : FileHeader) : Disk :=
  mkDisk (<[s := h]> (headers d)) (fileData d) (freeMapData d)
         (journal d ++ [WHeader s h]).

(** [new PersistentBitmap (freeMapFile, NumSectors)] and
    [freeMap->WriteBack (freeMapFile)]. *)
Definition FreeMap_load (d : Disk) : Bitmap.t := freeMapData d.

Definition FreeMap_store (d : Disk) (m : Bitmap.t) : Disk :=
  mkDisk (headers d) (fileData d) m (journal d ++ [WFreeMap m]).

(** ** Path resolution: Directory::FindFormRoot *)

Section Resolution.
Context `{Collab}.

(** One level of [Directory::FindFormRoot] per unit of fuel; the recursion
    is on the rest of the path, which gets shorter at every level, see
    [FindFormRoot_fuel_enough].  [buf] has [FileNameMaxLen + 1] bytes, [temp]
    has 256; the pointer [name] is only read after it was advanced when an
    entry matched. *)
Fixpoint FindFormRoot_fuel (fuel : nat) (d : Disk) (table : list DirectoryEntry)
    (nm : string) : option Z :=
  if decide (nm = "/"%string) then Some 1
  else match fuel with
  | O => None
  | S fuel' =>
      if decide (255 < strlen nm) then None
      else
        cut ← head (tokens nm);
        if decide (Z.of_nat FileNameMaxLen < strlen cut + 1) then None
        else
          let buf := String "/" cut in
          match List.find (entry_matches buf) table with
          | None => Some (-1)
          | Some e =>
              rest ← advance (String.length cut + 1) nm;
              if decide (rest = EmptyString) then Some (sector e)
              else FindFormRoot_fuel fuel' d (Directory_load d 64 (sector e)) rest
          end
  end.

Definition FindFormRoot (d : Disk) (table : list DirectoryEntry) (nm : string)
    : option Z :=
  FindFormRoot_fuel (String.length nm) d table nm.

(** The [while (cut != NULL)] loop that Create and Remove share: [fileName]
    is a [char [10]]. *)
Fixpoint split_loop (cuts : list string) (fileName : string) (len : Z)
    : option (string * Z) :=
  match cuts with
  | [] => Some (fileName, len)
  | cut :: cuts' =>
      if decide (8 < strlen cut) then None
      else split_loop cuts' (String "/" cut) (len + (strlen cut + 1))
  end.

(** The prologue that Create and Remove share: the path is cut into
    [directory] (its first [length] characters) and [fileName] ('/' and the
    last component). *)
Definition split_name (nm : string) : option (string * string) :=
  if decide (255 < strlen nm) then None
  else match tokens nm with
  | [] => None
  | cut :: cuts =>
      if decide (8 < strlen cut) then None
      else
        '(fileName, len) ← split_loop cuts (String "/" cut) 0;
        let len := if decide (len = 0) then 1 else len in
        Some (strn (Z.to_nat len) nm, fileName)
  end.

End Resolution.

(** ** filesys.cc *)

(** Modelled from the spec: [new OpenFile (sector)] (openfile.cc is not part
    of the sources) reads the header of the file from the sector through the
    block device, "read/write of a fixed-size sector by number".  A negative
    number is no sector of any device: the device asserts and the run ends
    there.  The number of sectors of the device is not in the sources, so
    the upper end is not modelled.  [List], and Create after a failed
    [FindAndSet], can hold -1 where they open a file; everywhere else the
    number was compared with -1 or 0 before, or comes out of an entry. *)
Definition OpenFile_new (sector : Z) : option Z :=
  if decide (0 <= sector) then Some sector else None.

Global Arguments OpenFile_new : simpl never.

Section FileSystem.
Context `{Collab}.

Definition DirectoryFileSize : Z := DirectoryEntrySize * Z.of_nat NumDirEntries.

(** The block of [FileSystem::Create] between the load of [nowDirectory]
    and [delete nowDirectory]: the outcome, the local [sector] ([None]
    while it is uninitialised) and the disk. *)
Definition Create_body (d : Disk) (nowDirectorySector : Z) (fileName : string)
    (initialSize : Z) (directoryFlag : bool) : bool * option Z * Disk :=
  let nowDirectory := Directory_load d NumDirEntries nowDirectorySector in
  if decide (Find nowDirectory fileName ≠ -1) then (false, None, d)
  else
    let '(sector, freeMap) := Bitmap.FindAndSet (FreeMap_load d) in
    if decide (sector = -1) then (false, Some sector, d)
    else match Add nowDirectory fileName sector directoryFlag with
    | (false, _) => (false, Some sector, d)
    | (true, nowDirectory) =>
        let initialSize := if directoryFlag then DirectoryFileSize else initialSize in
        match Allocate freeMap initialSize with
        | None => (false, Some sector, d)
        | Some (hdr, freeMap) =>
            let d := FileHeader_store d sector hdr in
            let d := Directory_store d nowDirectorySector nowDirectory in
            let d := FreeMap_store d freeMap in
            (true, Some sector, d)
        end
    end.

(** [FileSystem::Create]. *)
Definition Create (nm : string) (initialSize : Z) (directoryFlag : bool)
    (d : Disk) : option (bool * Disk) :=
  let root := Directory_load d NumDirEntries DirectorySector in
  '(directory, fileName) ← split_name nm;
  nowDirectorySector ← FindFormRoot d root directory;
  if decide (0 <= nowDirectorySector) then
    let '(success, sector, d) :=
      Create_body d nowDirectorySector fileName initialSize directoryFlag in
    if directoryFlag then
      sector ← sector;
      newDirectoryFile ← OpenFile_new sector;
      Some (success,
            Directory_store d newDirectoryFile (Directory_new NumDirEntries))
    else Some (success, d)
  else Some (false, d).

(** The [while (traceFileHeader != NULL)] loop of [FileSystem::Remove]. *)
Fixpoint clear_chain (traceFileHeader : FileHeader) (traceFileHeaderSector : Z)
    (freeMap : Bitmap.t) : Bitmap.t :=
  let freeMap := Bitmap.Clear freeMap traceFileHeaderSector in
  match traceFileHeader with
  | Hdr _ _ nextSector (Some next) => clear_chain next nextSector freeMap
  | Hdr _ _ _ None => freeMap
  end.

(** The [for] loop of [FileSystem::Remove] over the entries of
    [traceDirectory]; [rm] is the recursive call, whose outcome is dropped.
    [temp] has 256 bytes. *)
Fixpoint Remove_entries (rm : string → bool → Disk → option (bool * Disk))
    (nm : string) (recursiveRemoveFlag : bool)
    (entries : list DirectoryEntry) (d : Disk) : option Disk :=
  match entries with
  | [] => Some d
  | e :: rest =>
      if inUse e then
        if decide (255 < strlen nm + strlen (name e)) then None
        else
          r ← rm (String.append nm (name e)) recursiveRemoveFlag d;
          Remove_entries rm nm recursiveRemoveFlag rest r.2
      else Remove_entries rm nm recursiveRemoveFlag rest d
  end.

(** [FileSystem::Remove]; one unit of fuel per level of recursion. *)
Fixpoint Remove (fuel : nat) (nm : string) (recursiveRemoveFlag : bool)
    (d : Disk) : option (bool * Disk) :=
  match fuel with
  | O => None
  | S fuel' =>
      let root := Directory_load d NumDirEntries DirectorySector in
      '(directory, fileName) ← split_name nm;
      nowDirectorySector ← FindFormRoot d root directory;
      if decide (nowDirectorySector = -1) then Some (false, d)
      else
        let nowDirectory := Directory_load d NumDirEntries nowDirectorySector in
        let sector := Find nowDirectory fileName in
        let dFlag := GetFlag nowDirectory fileName in
        if bool_decide (sector = -1) || (dFlag && negb recursiveRemoveFlag)
        then Some (false, d)
        else
          d ← (if dFlag && recursiveRemoveFlag then
                 let traceDirectory := Directory_load d NumDirEntries sector in
                 d ← Remove_entries (Remove fuel') nm recursiveRemoveFlag
                       traceDirectory d;
                 Some (Directory_store d sector traceDirectory)
               else Some d);
          let fileHdr := FileHeader_load d sector in
          let freeMap := FreeMap_load d in
          let freeMap := Deallocate fileHdr freeMap in
          let freeMap := clear_chain fileHdr sector freeMap in
          let nowDirectory := (Directory_Remove nowDirectory fileName).2 in
          let d := FreeMap_store d freeMap in
          let d := Directory_store d nowDirectorySector nowDirectory in
          Some (true, d)
  end.

(** [Directory::ListAll]: the lines printed; one unit of fuel per level. *)
Fixpoint ListAll (fuel : nat) (d : Disk) (table : list DirectoryEntry)
    (head : string) : option (list string) :=
  match fuel with
  | O => None
  | S fuel' =>
      foldr (λ e (rest : option (list string)),
               if inUse e then
                 let line := String.append head (name e) in
                 below ← (if dFlag e then
                            if decide (255 < strlen head + strlen (name e)) then None
                            else ListAll fuel' d (Directory_load d 64 (sector e)) line
                          else Some []);
                 rest ← rest;
                 Some (line :: below ++ rest)
               else rest)
            (Some []) table
  end.

(** What [FileSystem::List] does once it has [sector]. *)
Definition List_sector (fuel : nat) (sector : Z) (recursiveListFlag : bool)
    (d : Disk) : option (list string) :=
  let directory := Directory_load d NumDirEntries sector in
  if recursiveListFlag then ListAll fuel d directory EmptyString
  else Some (Directory_List directory).

(** [FileSystem::List]: the lines printed. *)
Definition List (fuel : nat) (nm : string) (recursiveListFlag : bool)
    (d : Disk) : option (list string) :=
  let root := Directory_load d NumDirEntries DirectorySector in
  sector ← FindFormRoot d root nm;
  listDirectoryFile ← OpenFile_new sector;
  List_sector fuel listDirectoryFile recursiveListFlag d.

End FileSystem.

(** ** The open-file table *)

(** A slot of [openFileTable]: the null pointer, a pointer to an [OpenFile]
    bound to a sector, or a pointer whose [OpenFile] was deleted. *)
Inductive OpenFilePtr : Type :=
  | NULL
  | Live (at_sector : Z)
  | Deleted (at_sector : Z).

Global Instance OpenFilePtr_eq_dec : EqDecision OpenFilePtr.
Proof. solve_decision. Defined.

Definition is_NULL (p : OpenFilePtr) : bool :=
  match p with NULL => true | _ => false end.

Section OpenFileTable.
Context `{Collab}.

(** The [for (i = 1; i < 20; i++)] loop of [FileSystem::Openfile], [n]
    iterations from [i] on: the index at which it breaks, if it does.
    Reading a slot the table does not have is undefined. *)
Fixpoint Openfile_loop (n : nat) (i : Z) (openFileTable : list OpenFilePtr)
    : option (option Z) :=
  match n with
  | O => Some None
  | S n' =>
      p ← openFileTable !! Z.to_nat i;
      if is_NULL p then Some (Some i)
      else Openfile_loop n' (i + 1) openFileTable
  end.

(** [FileSystem::Openfile]: the value returned and the table. *)
Definition Openfile (nm : string) (d : Disk) (openFileTable : list OpenFilePtr)
    : option (Z * list OpenFilePtr) :=
  let directory := Directory_load d NumDirEntries DirectorySector in
  sector ← FindFormRoot d directory nm;
  '(id, openFileTable) ←
    (if decide (0 <= sector) then
       found ← Openfile_loop 19 1 openFileTable;
       match found with
       | Some i => Some (i, <[Z.to_nat i := Live sector]> openFileTable)
       | None => Some (-1, openFileTable)
       end
     else Some (-1, openFileTable));
  if decide (1 <= id < 20) then
    p ← openFileTable !! Z.to_nat id;
    if is_NULL p then Some (-1, openFileTable) else Some (id, openFileTable)
  else Some (-1, openFileTable).

(** [FileSystem::Close]: the slot keeps its pointer, the [OpenFile] behind
    it is deleted; deleting it a second time is undefined. *)
Definition Close (id : Z) (openFileTable : list OpenFilePtr)
    : option (Z * list OpenFilePtr) :=
  if decide (1 <= id < 20) then
    p ← openFileTable !! Z.to_nat id;
    match p with
    | NULL => Some (-1, openFileTable)
    | Live s => Some (1, <[Z.to_nat id := Deleted s]> openFileTable)
    | Deleted _ => None
    end
  else Some (-1, openFileTable).

End OpenFileTable.

(** ** A concrete set of collaborators *)

(** Modelled from the spec: the header collaborator's [allocate] and
    [deallocate] (filehdr.cc is not part of the sources), in the plain form
    the spec describes: allocation fails when the bitmap has fewer free
    sectors than the size needs and otherwise takes them lowest first,
    deallocation clears the data sectors of every header of the chain.
    The sector has 128 bytes; an entry has 20 bytes and a name at most 9
    characters, which is what [char fileName [10]] of filesys.cc is made
    for. *)
Module Nachos.

Definition SectorSize : Z := 128.

Fixpoint take_sectors (n : nat) (m : Bitmap.t) : list Z * Bitmap.t :=
  match n with
  | O => ([], m)
  | S n' =>
      let '(s, m) := Bitmap.FindAndSet m in
      let '(rest, m) := take_sectors n' m in
      (s :: rest, m)
  end.

Definition Allocate (freeMap : Bitmap.t) (fileSize : Z)
    : option (FileHeader * Bitmap.t) :=
  let numSectors := (fileSize + SectorSize - 1) / SectorSize in
  if decide (Bitmap.NumClear freeMap < numSectors) then None
  else
    let '(dataSectors, freeMap) := take_sectors (Z.to_nat numSectors) freeMap in
    Some (Hdr fileSize dataSectors (-1) None, freeMap).

Fixpoint Deallocate (h : FileHeader) (freeMap : Bitmap.t) : Bitmap.t :=
  let freeMap := foldl Bitmap.Clear freeMap (hdr_dataSectors h) in
  match h with
  | Hdr _ _ _ (Some next) => Deallocate next freeMap
  | Hdr _ _ _ None => freeMap
  end.

Definition collab : Collab := Build_Collab 9 20 Allocate Deallocate.

(** The disk after [FileSystem::FileSystem (TRUE)] on a device of [n]
    sectors: sectors 0 and 1 and the data sectors of the bitmap and of the
    root directory are marked, the root directory is empty. *)
Definition formatted (n : nat) : Disk :=
  let freeMap := Bitmap.Mark (Bitmap.Mark (replicate n false) 0) 1 in
  match Allocate freeMap (Z.of_nat n / 8) with
  | Some (mapHdr, freeMap) =>
      match Allocate freeMap (20 * 64) with
      | Some (dirHdr, freeMap) =>
          mkDisk {[ 0 := mapHdr; 1 := dirHdr ]}
                 {[ 1 := Directory_new NumDirEntries ]} freeMap []
      | None => mkDisk ∅ ∅ freeMap []
      end
  | None => mkDisk ∅ ∅ freeMap []
  end.

End Nachos.

(** ** Predicates the properties are stated with *)

Section Predicates.
Context `{Collab}.

(** Every entry of the table is in use. *)
Definition table_full (table : list DirectoryEntry) : Prop :=
  Forall (λ e, inUse e = true) table.

(** An entry in use carries exactly the name [nm]. *)
Definition name_present (table : list DirectoryEntry) (nm : string) : Prop :=
  ∃ e, e ∈ table ∧ inUse e = true ∧ name e = nm.

(** An entry in use agrees with [nm] on the first [FileNameMaxLen]
    characters. *)
Definition prefix_present (table : list DirectoryEntry) (nm : string) : Prop :=
  ∃ e, e ∈ table ∧ inUse e = true ∧
       strn FileNameMaxLen (name e) = strn FileNameMaxLen nm.

(** [table'] is [table] with its first entry that is not in use replaced
    by [new]. *)
Definition claims_first_free (table table' : list DirectoryEntry)
    (new : DirectoryEntry) : Prop :=
  ∃ l1 e l2,
    table = l1 ++ e :: l2 ∧ Forall (λ x, inUse x = true) l1 ∧
    inUse e = false ∧ table' = l1 ++ new :: l2.

End Predicates.

(** The names of the entries in use are pairwise different. *)
Definition unique_inuse (table : list DirectoryEntry) : Prop :=
  NoDup (Directory_List table).

Global Instance unique_inuse_dec table : Decision (unique_inuse table) := _.

(** Every directory table that can be loaded from the disk has pairwise
    different names in use. *)
Definition disk_unique (d : Disk) : Prop :=
  map_Forall (λ _ stored,
                unique_inuse (FetchFrom (Directory_new NumDirEntries) stored))
             (fileData d).

Global Instance disk_unique_dec d : Decision (disk_unique d) := _.


(** The tables written to sector [s], oldest first, as lists of the names
    in use. *)
Definition directory_writes (s : Z) (journal : list DiskWrite) : list (list string) :=
  omap (λ w, match w with
             | WDirectory s' table =>
                 if decide (s' = s) then Some (Directory_List table) else None
             | _ => None
             end) journal.

(** Sequences of Create and Remove. *)
Inductive Op : Type :=
  | OpCreate (nm : string) (initialSize : Z) (directoryFlag : bool)
  | OpRemove (nm : string) (recursiveRemoveFlag : bool).

Section Runs.
Context `{Collab}.

Definition run_op (fuel : nat) (o : Op) (d : Disk) : option Disk :=
  match o with
  | OpCreate nm initialSize directoryFlag =>
      snd <$> Create nm initialSize directoryFlag d
  | OpRemove nm recursiveRemoveFlag =>
      snd <$> Remove fuel nm recursiveRemoveFlag d
  end.

Fixpoint run_ops (fuel : nat) (ops : list Op) (d : Disk) : option Disk :=
  match ops with
  | [] => Some d
  | o :: ops' => d' ← run_op fuel o d; run_ops fuel ops' d'
  end.

End Runs.

(** An entry with its [dFlag] reset. *)
Definition forget_dFlag (e : DirectoryEntry) : DirectoryEntry :=
  mkEntry (inUse e) (sector e) (name e) false.

(** ** Disks and tables the properties are tried on *)

Module Scenario.
Import Nachos.
#[local] Existing Instance collab.

(** A device of 64 sectors and one of 32, freshly formatted: sectors 0 to 12
    are taken, 13 is the first free one. *)
Definition fresh : Disk := formatted 64.
Definition small : Disk := formatted 32.

(** The open-file table with every slot null. *)
Definition no_handles : list OpenFilePtr := replicate 20 NULL.

(** A directory /d that holds the file /d/x. *)
Definition with_d_x : option Disk :=
  r1 ← Create "/d" 0 true fresh;
  r2 ← Create "/d/x" 100 false r1.2;
  Some r2.2.

(** /d and /d/x created and /d removed recursively, then a plain file /f
    of the size of a directory table created. *)
Definition with_f : option Disk :=
  d ← with_d_x;
  r3 ← Remove 2 "/d" true d;
  r4 ← Create "/f" 1280 false r3.2;
  Some r4.2.

(** The small device with /a (one data sector) and /b (ten) created and /a
    removed again: sectors 13 and 14 and six more are free, the header
    that /a had is still in sector 13. *)
Definition nearly_full : option Disk :=
  r1 ← Create "/a" 128 false small;
  r2 ← Create "/b" 1280 false r1.2;
  r3 ← Remove 1 "/a" false r2.2;
  Some r3.2.

(** The file /a on the device of 64 sectors. *)
Definition with_a : option Disk :=
  r ← Create "/a" 10 false fresh; Some r.2.


End Scenario.

(** ** The rest of filesys.cc, and what its properties are stated with *)

(** The string holds no '/': it is one component of a path. *)
Fixpoint slash_free (s : string) : bool :=
  match s with
  | EmptyString => true
  | String c s' => negb (is_slash c) && slash_free s'
  end.

Section MoreFileSystem.
Context `{Collab}.

(** Every name in use fits the name field of an entry. *)
Definition names_bounded (table : list DirectoryEntry) : Prop :=
  Forall (λ e, inUse e = true → (String.length (name e) <= FileNameMaxLen)%nat)
         table.

Global Instance names_bounded_dec table : Decision (names_bounded table) := _.

(** [FileSystem::Open]: [Some s] for a handle on sector [s], [None] for the
    null pointer. *)
Definition Open (nm : string) (d : Disk) : option (option Z) :=
  let directory := Directory_load d NumDirEntries DirectorySector in
  sector ← FindFormRoot d directory nm;
  if decide (0 <= sector) then Some (Some sector) else Some None.

End MoreFileSystem.

(** What [FileSystem::Write] and [FileSystem::Read] return: -1, or whatever
    [Write] or [Read] of the handle in the slot returns (openfile.cc is not
    part of the sources; the handle is named by the sector it is bound
    to). *)
Inductive Transfer : Type :=
  | Refused
  | OnHandle (at_sector : Z).

(** [FileSystem::Write] and [FileSystem::Read]: the slot is used when it
    does not hold the null pointer; calling a method of a deleted handle is
    undefined. *)
Definition Write (id : Z) (openFileTable : list OpenFilePtr) : option Transfer :=
  if decide (1 <= id < 20) then
    p ← openFileTable !! Z.to_nat id;
    match p with
    | NULL => Some Refused
    | Live s => Some (OnHandle s)
    | Deleted _ => None
    end
  else Some Refused.

Definition Read (id : Z) (openFileTable : list OpenFilePtr) : option Transfer :=
  if decide (1 <= id < 20) then
    p ← openFileTable !! Z.to_nat id;
    match p with
    | NULL => Some Refused
    | Live s => Some (OnHandle s)
    | Deleted _ => None
    end
  else Some Refused.

(** Sequences of Openfile and Close on one disk. *)
Inductive FdOp : Type :=
  | FdOpen (nm : string)
  | FdClose (id : Z).

(** The slots other than slot 0 that hold the null pointer. *)
Definition null_slots (openFileTable : list OpenFilePtr) : nat :=
  length (filter (λ p, is_NULL p = true) (tail openFileTable)).

Section DescriptorRuns.
Context `{Collab}.

(** The table after the operations, and how many of the Openfile calls
    returned a descriptor. *)
Fixpoint run_fd (d : Disk) (ops : list FdOp) (openFileTable : list OpenFilePtr)
    : option (nat * list OpenFilePtr) :=
  match ops with
  | [] => Some (O, openFileTable)
  | FdOpen nm :: ops' =>
      '(id, openFileTable) ← Openfile nm d openFileTable;
      '(n, openFileTable) ← run_fd d ops' openFileTable;
      Some (if decide (id = -1) then n else S n, openFileTable)
  | FdClose id :: ops' =>
      '(_, openFileTable) ← Close id openFileTable;
      run_fd d ops' openFileTable
  end.

End DescriptorRuns.

(** The disks of [Scenario] as plain values, and two small tables. *)
Module Cases.
#[local] Existing Instance Nachos.collab.

(** The device of 64 sectors with the plain file /a, header in sector 13. *)
Definition with_a : Disk := default Scenario.fresh Scenario.with_a.

(** The device of 64 sectors with the directory /d (header in sector 13)
    and the file /d/x (header in sector 24). *)
Definition with_d_x : Disk := default Scenario.fresh Scenario.with_d_x.

(** A table of three entries with /a (sector 5) and /b (sector 6, a
    subdirectory) added. *)
Definition a_b : list DirectoryEntry :=
  (Add (Add (Directory_new 3) "/a" 5 false).2 "/b" 6 true).2.

(** A table with two plain files in use and a released entry between
    them. *)
Definition flat : list DirectoryEntry :=
  [mkEntry true 5 "/a" false; mkEntry false 9 "/old" true;
   mkEntry true 6 "/b" false].

(** The open-file table with a handle on sector 13 in slot 1. *)
Definition one_handle : list OpenFilePtr :=
  <[1%nat := Live 13]> Scenario.no_handles.

End Cases.

(** * Properties *)

(** ** C strings *)

Lemma OpenFile_new_Some (sector file : Z) :
  OpenFile_new sector = Some file ↔ file = sector ∧ 0 <= sector.
Proof.
  unfold OpenFile_new. case_decide; split; try (intros [= <-]; done);
    intros [-> ?]; done.
Qed.

Lemma strn_idemp (n : nat) (s : string) : strn n (strn n s) = strn n s.
Proof.
  revert s; induction n as [|n IH]; intros [|c s]; simpl; try reflexivity.
  by rewrite IH.
Qed.

Lemma strn_short (n : nat) (s : string) :
  (String.length s <= n)%nat → strn n s = s.
Proof.
  revert s; induction n as [|n IH]; intros [|c s]; simpl; intros Hlen;
    try reflexivity; try lia.
  rewrite IH; [reflexivity | lia].
Qed.

Lemma advance_length (k : nat) (s r : string) :
  advance k s = Some r → (String.length r + k = String.length s)%nat.
Proof.
  revert s; induction k as [|k IH]; intros [|c s]; simpl; intros Hadv;
    try discriminate.
  - inversion Hadv; subst; simpl; lia.
  - inversion Hadv; subst; simpl; lia.
  - apply IH in Hadv. lia.
Qed.

(** ** Directory tables *)

Section DirectoryFacts.
Context `{Collab}.

Lemma entry_matches_prefix (n1 n2 : string) (e : DirectoryEntry) :
  strn FileNameMaxLen n1 = strn FileNameMaxLen n2 →
  entry_matches n1 e = entry_matches n2 e.
Proof. intros Heq. unfold entry_matches, strncmp_eq. by rewrite Heq. Qed.

Lemma entry_matches_true (nm : string) (e : DirectoryEntry) :
  entry_matches nm e = true ↔
  inUse e = true ∧ strn FileNameMaxLen (name e) = strn FileNameMaxLen nm.
Proof.
  unfold entry_matches, strncmp_eq.
  rewrite andb_true_iff, bool_decide_eq_true. reflexivity.
Qed.

Lemma FindIndex_loop_range (table : list DirectoryEntry) (i : Z) (nm : string) :
  FindIndex_loop table i nm = -1 ∨
  i <= FindIndex_loop table i nm < i + Z.of_nat (length table).
Proof.
  revert i; induction table as [|e rest IH]; intros i; simpl; [by left|].
  destruct (entry_matches nm e); [right; lia|].
  destruct (IH (i + 1)) as [->|Hr]; [by left | right; lia].
Qed.

Lemma FindIndex_loop_none (table : list DirectoryEntry) (i : Z) (nm : string) :
  0 <= i →
  FindIndex_loop table i nm = -1 ↔
  Forall (λ e, entry_matches nm e = false) table.
Proof.
  revert i; induction table as [|e rest IH]; intros i Hi; simpl.
  - split; [constructor | reflexivity].
  - destruct (entry_matches nm e) eqn:Hm.
    + split; [lia | intros Hall; inversion Hall; congruence].
    + rewrite IH by lia. split; [by constructor | by inversion 1].
Qed.

Lemma FindIndex_loop_app (l1 l2 : list DirectoryEntry) (i : Z) (nm : string) :
  Forall (λ e, entry_matches nm e = false) l1 →
  FindIndex_loop (l1 ++ l2) i nm = FindIndex_loop l2 (i + Z.of_nat (length l1)) nm.
Proof.
  revert i; induction l1 as [|e l1 IH]; intros i Hall; simpl.
  - f_equal; lia.
  - inversion Hall as [|? ? Hm Hrest]; subst. rewrite Hm, IH by done.
    f_equal; lia.
Qed.

Lemma FindIndex_loop_prefix (table : list DirectoryEntry) (i : Z) (n1 n2 : string) :
  strn FileNameMaxLen n1 = strn FileNameMaxLen n2 →
  FindIndex_loop table i n1 = FindIndex_loop table i n2.
Proof.
  intros Heq; revert i; induction table as [|e rest IH]; intros i; simpl;
    [reflexivity|].
  by rewrite (entry_matches_prefix n1 n2 e Heq), IH.
Qed.

Lemma Add_loop_Some (table table' : list DirectoryEntry) (nm : string)
    (newSector : Z) (flag : bool) :
  Add_loop table nm newSector flag = Some table' →
  ∃ l1 e l2,
    table = l1 ++ e :: l2 ∧ Forall (λ x, inUse x = true) l1 ∧ inUse e = false ∧
    table' = l1 ++ mkEntry true newSector (strn FileNameMaxLen nm) flag :: l2.
Proof.
  revert table'; induction table as [|e rest IH]; intros table'; simpl;
    [discriminate|].
  destruct (inUse e) eqn:Hu; simpl.
  - destruct (Add_loop rest nm newSector flag) as [r|] eqn:Hr; simpl;
      [|discriminate].
    intros [= <-]. destruct (IH r eq_refl) as (l1 & e0 & l2 & -> & Hl1 & He0 & ->).
    exists (e :: l1), e0, l2. repeat split; try done. by constructor.
  - intros [= <-]. exists [], e, rest. repeat split; try done.
Qed.

Lemma Add_loop_None (table : list DirectoryEntry) (nm : string)
    (newSector : Z) (flag : bool) :
  Add_loop table nm newSector flag = None ↔
  Forall (λ x, inUse x = true) table.
Proof.
  induction table as [|e rest IH]; simpl; [split; [constructor | done]|].
  destruct (inUse e) eqn:Hu; simpl.
  - destruct (Add_loop rest nm newSector flag) as [r|] eqn:Hr; simpl.
    + split; [discriminate|]. intros Hall.
      apply Forall_cons in Hall as [_ Hrest]. by apply IH in Hrest.
    + split; [|done]. intros _. constructor; [done | by apply IH].
  - split; [discriminate|]. inversion 1; congruence.
Qed.

Lemma Add_loop_prefix (table : list DirectoryEntry) (n1 n2 : string)
    (newSector : Z) (flag : bool) :
  strn FileNameMaxLen n1 = strn FileNameMaxLen n2 →
  Add_loop table n1 newSector flag = Add_loop table n2 newSector flag.
Proof.
  intros Heq; induction table as [|e rest IH]; simpl; [reflexivity|].
  by rewrite Heq, IH.
Qed.

Lemma Add_length (table table' : list DirectoryEntry) (nm : string)
    (newSector : Z) (flag : bool) :
  Add table nm newSector flag = (true, table') → length table' = length table.
Proof.
  unfold Add. case_decide; [discriminate|].
  destruct (Add_loop table nm newSector flag) as [r|] eqn:Hr; [|discriminate].
  intros [= <-]. apply Add_loop_Some in Hr as (l1 & e & l2 & -> & _ & _ & ->).
  by rewrite !length_app.
Qed.

End DirectoryFacts.

(** ** Directory::Add and the lookups *)

Section AddFacts.
Context `{Collab}.

Lemma prefix_present_matches (table : list DirectoryEntry) (nm : string) :
  prefix_present table nm ↔ ¬ Forall (λ e, entry_matches nm e = false) table.
Proof.
  unfold prefix_present. rewrite <- Exists_Forall_neg
    by (intros e; destruct (entry_matches nm e); [right|left]; congruence).
  rewrite Exists_exists. split.
  - intros (e & Hin & Hu & Hn). exists e. split; [done|].
    rewrite (proj2 (entry_matches_true nm e)); [discriminate | done].
  - intros (e & Hin & Hm). exists e. split; [done|].
    apply entry_matches_true. by destruct (entry_matches nm e).
Qed.

Lemma FindIndex_found_iff (table : list DirectoryEntry) (nm : string) :
  FindIndex table nm ≠ -1 ↔ prefix_present table nm.
Proof.
  unfold FindIndex. rewrite prefix_present_matches.
  by rewrite (FindIndex_loop_none table 0 nm) by lia.
Qed.

(** [Add] on names of any length: it fails exactly when an entry in use
    agrees with the name on its first [FileNameMaxLen] characters or when no
    entry is free, and then leaves the table as it is; otherwise the first
    free entry is claimed and receives the first [FileNameMaxLen] characters
    of the name, the sector and the flag. *)
Lemma Add_claims_first_free_entry (table : list DirectoryEntry) (nm : string)
    (newSector : Z) (flag : bool) :
  ((Add table nm newSector flag).1 = false ↔
     prefix_present table nm ∨ table_full table) ∧
  ((Add table nm newSector flag).1 = false →
     (Add table nm newSector flag).2 = table) ∧
  ((Add table nm newSector flag).1 = true →
     claims_first_free table (Add table nm newSector flag).2
       (mkEntry true newSector (strn FileNameMaxLen nm) flag)) ∧
  ((String.length nm <= FileNameMaxLen)%nat →
     strn FileNameMaxLen nm = nm).
Proof.
  unfold Add. pose proof (FindIndex_found_iff table nm) as Hfound.
  pose proof (Add_loop_None table nm newSector flag) as Hnone.
  case_decide as Hidx; simpl.
  - repeat split; try done; [by left; apply Hfound | apply strn_short].
  - destruct (Add_loop table nm newSector flag) as [table'|] eqn:Hloop; simpl.
    + repeat split; try done.
      * intros [Hdup|Hfull]; [by apply Hfound in Hdup|].
        apply Hnone in Hfull. discriminate.
      * intros _. by apply Add_loop_Some in Hloop.
      * apply strn_short.
    + repeat split; try done; [by right; apply Hnone | apply strn_short].
Qed.

Lemma name_present_prefix (table : list DirectoryEntry) (nm : string) :
  (String.length nm <= FileNameMaxLen)%nat → names_bounded table →
  prefix_present table nm ↔ name_present table nm.
Proof.
  intros Hnm Hbound. unfold prefix_present, name_present, names_bounded in *.
  rewrite Forall_forall in Hbound.
  split; intros (e & Hin & Hu & Hn); exists e; repeat split; try done.
  - rewrite !strn_short in Hn by auto. done.
  - by rewrite Hn.
Qed.

(** C8: for every table whose names in use fit the name field, and every
    name that fits it, [Add] fails exactly when the name is already present
    among the entries in use or when no entry is free, and then leaves the
    table as it is; otherwise it claims the first entry that is not in use
    and stores the name, the sector and the flag there.  [Add] has no disk
    among its arguments or results: it persists nothing. *)
Theorem Add_fails_or_claims_first_free (table : list DirectoryEntry)
    (nm : string) (newSector : Z) (flag : bool) :
  (String.length nm <= FileNameMaxLen)%nat → names_bounded table →
  ((Add table nm newSector flag).1 = false ↔
     name_present table nm ∨ table_full table) ∧
  ((Add table nm newSector flag).1 = false →
     (Add table nm newSector flag).2 = table) ∧
  ((Add table nm newSector flag).1 = true →
     claims_first_free table (Add table nm newSector flag).2
       (mkEntry true newSector nm flag)).
Proof.
  intros Hnm Hbound.
  destruct (Add_claims_first_free_entry table nm newSector flag)
    as (Hfail & Hsame & Hclaim & Hshort).
  rewrite (name_present_prefix table nm Hnm Hbound) in Hfail.
  rewrite (Hshort Hnm) in Hclaim. done.
Qed.

(** C9: two names with the same first [FileNameMaxLen] characters are one
    name for [FindIndex], [Find], [GetFlag] and [Add]; after one of them was
    added, the lookup of the other finds the entry and its sector, and adding
    the other is refused. *)
Theorem same_prefix_same_name (table : list DirectoryEntry) (n1 n2 : string) :
  strn FileNameMaxLen n1 = strn FileNameMaxLen n2 →
  FindIndex table n1 = FindIndex table n2 ∧
  Find table n1 = Find table n2 ∧
  GetFlag table n1 = GetFlag table n2 ∧
  (∀ newSector flag,
     Add table n1 newSector flag = Add table n2 newSector flag) ∧
  (∀ newSector flag table',
     Add table n1 newSector flag = (true, table') →
     FindIndex table' n2 ≠ -1 ∧ Find table' n2 = newSector ∧
     GetFlag table' n2 = flag ∧
     ∀ s f, Add table' n2 s f = (false, table')).
Proof.
  intros Heq.
  assert (Hidx : ∀ t, FindIndex t n1 = FindIndex t n2)
    by (intros t; by apply FindIndex_loop_prefix).
  split; [apply Hidx|]. split; [unfold Find; by rewrite Hidx|].
  split; [unfold GetFlag; by rewrite Hidx|].
  split; [intros s f; unfold Add;
          by rewrite Hidx, (Add_loop_prefix table n1 n2 s f Heq)|].
  intros newSector flag table'. unfold Add.
  case_decide as Hnot; [discriminate|].
  destruct (Add_loop table n1 newSector flag) as [r|] eqn:Hloop; [|discriminate].
  intros [= <-].
  apply Add_loop_Some in Hloop as (l1 & e & l2 & -> & Hl1 & He & ->).
  assert (Hno : Forall (λ x, entry_matches n2 x = false) l1).
  { assert (Hall : FindIndex (l1 ++ e :: l2) n2 = -1)
      by (rewrite <- Hidx; by destruct (decide (FindIndex (l1 ++ e :: l2) n1 = -1))).
    unfold FindIndex in Hall. apply FindIndex_loop_none in Hall; [|lia].
    by apply Forall_app in Hall as [? _]. }
  assert (Hat : FindIndex (l1 ++ mkEntry true newSector (strn FileNameMaxLen n1) flag :: l2) n2
                = Z.of_nat (length l1)).
  { unfold FindIndex. rewrite FindIndex_loop_app by done. simpl.
    rewrite (proj2 (entry_matches_true n2 _)); [lia|].
    simpl. by rewrite strn_idemp. }
  assert (Hget : table_at (l1 ++ mkEntry true newSector (strn FileNameMaxLen n1) flag :: l2)
                   (Z.of_nat (length l1))
                 = mkEntry true newSector (strn FileNameMaxLen n1) flag).
  { unfold table_at. rewrite Nat2Z.id, list_lookup_middle by done. done. }
  assert (Hne : Z.of_nat (length l1) ≠ -1) by lia.
  split; [by rewrite Hat|].
  split; [unfold Find; rewrite Hat; case_decide; [by rewrite Hget | done]|].
  split; [unfold GetFlag; rewrite Hat; case_decide; [by rewrite Hget | done]|].
  intros s f. rewrite Hat. by case_decide.
Qed.

End AddFacts.

(** /a released from the table of /a and /b, and /c added. *)
Lemma Add_fails_or_claims_first_free_witness :
  let table := (Directory_Remove (H := Nachos.collab) Cases.a_b "/a").2 in
  (String.length "/c" <= 9)%nat ∧ names_bounded (H := Nachos.collab) table ∧
  (Add (H := Nachos.collab) table "/c" 7 false).1 = true ∧
  claims_first_free table (Add (H := Nachos.collab) table "/c" 7 false).2
    (mkEntry true 7 "/c" false).
Proof.
  intros table.
  assert (Hb : names_bounded (H := Nachos.collab) table)
    by (apply (bool_decide_unpack _); vm_compute; exact I).
  assert (Hn : (String.length "/c" <= 9)%nat) by (simpl; lia).
  split; [exact Hn|]. split; [exact Hb|]. split; [reflexivity|].
  apply (Add_fails_or_claims_first_free (H := Nachos.collab)
           table "/c" 7 false Hn Hb).
  reflexivity.
Defined.

(** Two names that differ from the tenth character on. *)
Lemma same_prefix_same_name_witness :
  strn 9 "/abcdefghij" = strn 9 "/abcdefghXYZ" ∧
  Find (H := Nachos.collab)
    (Add (H := Nachos.collab) (Directory_new 2) "/abcdefghij"%string 5 false).2
    "/abcdefghXYZ"%string = 5.
Proof.
  split; [reflexivity|].
  destruct (same_prefix_same_name (H := Nachos.collab)
              (Directory_new 2) "/abcdefghij"%string "/abcdefghXYZ"%string
              eq_refl) as (_ & _ & _ & _ & Hadded).
  apply (Hadded 5 false). reflexivity.
Defined.

(** ** Directory::FindFormRoot *)

Section ResolutionFacts.
Context `{Collab}.

Lemma FindFormRoot_fuel_stable (f1 f2 : nat) (d : Disk)
    (table : list DirectoryEntry) (nm : string) :
  (String.length nm <= f1)%nat → (String.length nm <= f2)%nat →
  FindFormRoot_fuel f1 d table nm = FindFormRoot_fuel f2 d table nm.
Proof.
  revert f2 table nm; induction f1 as [|f1 IH]; intros [|f2] table nm H1 H2;
    try reflexivity.
  - destruct nm; [|simpl in H1; lia]. reflexivity.
  - destruct nm; [|simpl in H2; lia]. reflexivity.
  - simpl. case_decide; [reflexivity|]. case_decide; [reflexivity|].
    destruct (head (tokens nm)) as [cut|]; simpl; [|reflexivity].
    case_decide; [reflexivity|].
    destruct (List.find _ table) as [e|]; [|reflexivity].
    destruct (advance (String.length cut + 1) nm) as [rest|] eqn:Hadv; simpl;
      [|reflexivity].
    case_decide; [reflexivity|].
    apply advance_length in Hadv. apply IH; lia.
Qed.

(** The fuel that [FindFormRoot] starts with is never used up: more fuel
    gives the same result. *)
Lemma FindFormRoot_fuel_enough (fuel : nat) (d : Disk)
    (table : list DirectoryEntry) (nm : string) :
  (String.length nm <= fuel)%nat →
  FindFormRoot_fuel fuel d table nm = FindFormRoot d table nm.
Proof. intros Hf. by apply FindFormRoot_fuel_stable. Qed.

(** One level of [FindFormRoot], for a path that is not "/" and fits the
    buffers. *)
Lemma FindFormRoot_step (d : Disk) (table : list DirectoryEntry)
    (nm cut : string) :
  nm ≠ "/"%string → strlen nm <= 255 →
  head (tokens nm) = Some cut → strlen cut + 1 <= Z.of_nat FileNameMaxLen →
  FindFormRoot d table nm =
    match List.find (entry_matches (String "/" cut)) table with
    | None => Some (-1)
    | Some e =>
        rest ← advance (String.length cut + 1) nm;
        if decide (rest = EmptyString) then Some (sector e)
        else FindFormRoot d (Directory_load d 64 (sector e)) rest
    end.
Proof.
  intros Hroot Hlen Hcut Hbuf. unfold FindFormRoot.
  destruct nm as [|c nm]; [discriminate|].
  cbn [String.length FindFormRoot_fuel].
  case_decide; [done|]. case_decide; [lia|]. rewrite Hcut. simpl.
  case_decide; [lia|].
  destruct (List.find _ table) as [e|]; [|reflexivity].
  destruct (advance (String.length cut + 1) (String c nm)) as [rest|] eqn:Hadv;
    simpl; [|reflexivity].
  case_decide; [reflexivity|].
  apply advance_length in Hadv. apply FindFormRoot_fuel_enough.
  simpl in Hadv. lia.
Qed.

(** The part of C2 that the code keeps: a component that no entry in use
    matches makes the resolution return -1. *)
Lemma FindFormRoot_absent (d : Disk) (table : list DirectoryEntry)
    (nm cut : string) :
  nm ≠ "/"%string → strlen nm <= 255 →
  head (tokens nm) = Some cut → strlen cut + 1 <= Z.of_nat FileNameMaxLen →
  Forall (λ e, entry_matches (String "/" cut) e = false) table →
  FindFormRoot d table nm = Some (-1).
Proof.
  intros Hroot Hlen Hcut Hbuf Hall.
  rewrite (FindFormRoot_step d table nm cut) by done.
  destruct (List.find _ table) as [e|] eqn:Hfind; [|reflexivity].
  apply find_some in Hfind as [Hin Hm].
  rewrite Forall_forall in Hall. apply list_elem_of_In in Hin.
  specialize (Hall e Hin). congruence.
Qed.

(** The flag of an entry plays no part in the resolution: tables that
    differ in nothing but [dFlag] resolve every path alike. *)
Lemma find_forget_dFlag (buf : string) (table : list DirectoryEntry) :
  List.find (entry_matches buf) (forget_dFlag <$> table) =
  forget_dFlag <$> List.find (entry_matches buf) table.
Proof.
  induction table as [|e rest IH]; [reflexivity|]. cbn [fmap list_fmap List.find].
  change (entry_matches buf (forget_dFlag e)) with (entry_matches buf e).
  destruct (entry_matches buf e); [reflexivity | apply IH].
Qed.

Lemma FindFormRoot_ignores_dFlag (d : Disk) (table : list DirectoryEntry)
    (nm : string) :
  FindFormRoot d (forget_dFlag <$> table) nm = FindFormRoot d table nm.
Proof.
  unfold FindFormRoot. destruct (String.length nm) as [|fuel]; [reflexivity|].
  simpl. case_decide; [reflexivity|]. case_decide; [reflexivity|].
  destruct (head (tokens nm)) as [cut|]; simpl; [|reflexivity].
  case_decide; [reflexivity|].
  rewrite find_forget_dFlag.
  by destruct (List.find _ table) as [e|].
Qed.

End ResolutionFacts.

(** ** The open-file table: Openfile and Close *)

Section OpenFileTableFacts.
Context `{Collab}.

Lemma Openfile_loop_found (n : nat) (i k : Z) (t : list OpenFilePtr) :
  0 <= i → i <= k < i + Z.of_nat n →
  t !! Z.to_nat k = Some NULL →
  (∀ j, i <= j < k → ∃ p, t !! Z.to_nat j = Some p ∧ is_NULL p = false) →
  Openfile_loop n i t = Some (Some k).
Proof.
  revert i; induction n as [|n IH]; intros i Hi Hk Hnull Hbefore; [lia|].
  simpl. destruct (decide (i = k)) as [->|Hne].
  - by rewrite Hnull.
  - destruct (Hbefore i) as (p & -> & Hp); [lia|]. simpl. rewrite Hp.
    apply IH; [lia | lia | done |]. intros j Hj. apply Hbefore. lia.
Qed.

Lemma Openfile_loop_full (n : nat) (i : Z) (t : list OpenFilePtr) :
  (∀ j, i <= j < i + Z.of_nat n →
        ∃ p, t !! Z.to_nat j = Some p ∧ is_NULL p = false) →
  Openfile_loop n i t = Some None.
Proof.
  revert i; induction n as [|n IH]; intros i Hall; [reflexivity|].
  simpl. destruct (Hall i) as (p & -> & Hp); [lia|]. simpl. rewrite Hp.
  apply IH. intros j Hj. apply Hall. lia.
Qed.

Lemma Openfile_loop_inv (n : nat) (i k : Z) (t : list OpenFilePtr) :
  Openfile_loop n i t = Some (Some k) →
  i <= k < i + Z.of_nat n ∧ t !! Z.to_nat k = Some NULL.
Proof.
  revert i; induction n as [|n IH]; intros i; simpl; [discriminate|].
  destruct (t !! Z.to_nat i) as [p|] eqn:Hp; simpl; [|discriminate].
  destruct p; simpl.
  - intros [= <-]. split; [lia | done].
  - intros Hrec. apply IH in Hrec. split; [lia | tauto].
  - intros Hrec. apply IH in Hrec. split; [lia | tauto].
Qed.

Lemma slot_occupied (t : list OpenFilePtr) (j : Z) :
  length t = 20%nat → 0 <= j < 20 → t !! Z.to_nat j ≠ Some NULL →
  ∃ p, t !! Z.to_nat j = Some p ∧ is_NULL p = false.
Proof.
  intros Hlen Hj Hnot.
  destruct (lookup_lt_is_Some_2 t (Z.to_nat j)) as [p Hp]; [lia|].
  exists p. split; [done|]. destruct p; simpl; congruence.
Qed.

Local Arguments Openfile_loop : simpl never.

(** C6: when the path resolves to a sector, [Openfile] takes the lowest
    slot from 1 to 19 that holds the null pointer, binds a handle on the
    sector there and returns the number of the slot; it returns -1 and
    leaves the table alone when the path does not resolve or when none of
    the slots 1 to 19 holds the null pointer; slot 0 is never returned and
    never written. *)
Theorem Openfile_claims_lowest_free_slot (nm : string) (d : Disk)
    (t : list OpenFilePtr) (sector : Z) :
  length t = 20%nat →
  FindFormRoot d (Directory_load d NumDirEntries DirectorySector) nm
    = Some sector →
  (∀ i, 0 <= sector → 1 <= i < 20 →
        t !! Z.to_nat i = Some NULL →
        (∀ j, 1 <= j < i → t !! Z.to_nat j ≠ Some NULL) →
        Openfile nm d t = Some (i, <[Z.to_nat i := Live sector]> t)) ∧
  (sector < 0 → Openfile nm d t = Some (-1, t)) ∧
  ((∀ j, 1 <= j < 20 → t !! Z.to_nat j ≠ Some NULL) →
     Openfile nm d t = Some (-1, t)) ∧
  (∀ r t', Openfile nm d t = Some (r, t') →
           r ≠ 0 ∧ t' !! 0%nat = t !! 0%nat).
Proof.
  intros Hlen Hres. unfold Openfile. rewrite Hres. simpl.
  split; [|split; [|split]].
  - intros i Hsec Hi Hnull Hlow. case_decide; [|lia].
    rewrite (Openfile_loop_found 19 1 i t); try done; try lia.
    + simpl. case_decide; [|lia].
      rewrite list_lookup_insert_eq by lia. done.
    + intros j Hj. apply slot_occupied; [done | lia | apply Hlow; lia].
  - intros Hneg. case_decide; [lia|]. reflexivity.
  - intros Hfull. case_decide; [|reflexivity].
    rewrite (Openfile_loop_full 19 1 t); [reflexivity|].
    intros j Hj. apply slot_occupied; [done | lia | apply Hfull; lia].
  - intros r t'. case_decide; simpl.
    + destruct (Openfile_loop 19 1 t) as [[k|]|] eqn:Hloop; simpl.
      * apply Openfile_loop_inv in Hloop as [Hk Hnull].
        case_decide; [|lia].
        rewrite list_lookup_insert_eq by lia. simpl. intros [= <- <-].
        split; [lia|]. apply list_lookup_insert_ne. lia.
      * intros [= <- <-]. split; [lia | done].
      * discriminate.
    + intros [= <- <-]. split; [lia | done].
Qed.

(** [Close] returns 1 exactly for an id from 1 to 19 whose slot points to a
    live handle, and -1 for an id out of that range or a slot that holds the
    null pointer. *)
Lemma Close_result (id : Z) (t : list OpenFilePtr) :
  (∀ t', Close id t = Some (1, t') →
         1 <= id < 20 ∧ ∃ s, t !! Z.to_nat id = Some (Live s)) ∧
  (¬ 1 <= id < 20 → Close id t = Some (-1, t)) ∧
  (t !! Z.to_nat id = Some NULL → Close id t = Some (-1, t)).
Proof.
  unfold Close. split; [|split].
  - intros t'. case_decide; [|discriminate].
    destruct (t !! Z.to_nat id) as [[]|]; simpl; try discriminate. eauto.
  - intros Hout. by case_decide.
  - intros ->. by case_decide.
Qed.

(** A slot that does not hold the null pointer before [Close] does not
    hold it afterwards either: [Close] frees no slot. *)
Lemma Close_frees_no_slot (id : Z) (t t' : list OpenFilePtr) (r : Z) (j : nat) :
  Close id t = Some (r, t') →
  is_NULL <$> t' !! j = is_NULL <$> t !! j.
Proof.
  unfold Close. case_decide; [|by intros [= <- <-]].
  destruct (t !! Z.to_nat id) as [[]|] eqn:Hp; simpl; try discriminate.
  - by intros [= <- <-].
  - intros [= <- <-]. destruct (decide (j = Z.to_nat id)) as [->|Hne].
    + rewrite Hp. rewrite list_lookup_insert_eq; [done|].
      by eapply lookup_lt_Some.
    + by rewrite list_lookup_insert_ne.
Qed.

End OpenFileTableFacts.

(** ** What Create and Remove leave on the disk *)

Section DiskFacts.
Context `{Collab}.

Lemma Directory_new_length (n : nat) : length (Directory_new n) = n.
Proof. apply length_replicate. Qed.

Lemma Directory_load_length (d : Disk) (n : nat) (s : Z) :
  length (Directory_load d n s) = n.
Proof.
  unfold Directory_load, FetchFrom.
  rewrite length_app, length_take, length_drop, Directory_new_length. lia.
Qed.

Lemma FetchFrom_WriteBack (n : nat) (table stored : list DirectoryEntry) :
  length table = n →
  FetchFrom (Directory_new n) (WriteBack table stored) = table.
Proof.
  intros Hlen. unfold FetchFrom, WriteBack.
  rewrite Directory_new_length, take_app_length' by done.
  rewrite drop_ge; [apply app_nil_r|].
  rewrite Directory_new_length, length_app. lia.
Qed.

Lemma Directory_Remove_length (table : list DirectoryEntry) (nm : string) :
  length (Directory_Remove table nm).2 = length table.
Proof.
  unfold Directory_Remove. case_decide; simpl; [done | apply length_insert].
Qed.

(** A property [P] of the disk that the write-backs of Remove preserve, for
    tables with the property [Q], is preserved by Remove. *)
Section RemovePreserves.
Variable P : Disk → Prop.
Variable Q : list DirectoryEntry → Prop.
Hypothesis P_Directory_store :
  ∀ d s table, P d → Q table → P (Directory_store d s table).
Hypothesis P_FreeMap_store : ∀ d m, P d → P (FreeMap_store d m).
Hypothesis Q_load : ∀ d s, P d → Q (Directory_load d NumDirEntries s).
Hypothesis Q_Remove : ∀ table nm, Q table → Q (Directory_Remove table nm).2.

Lemma Remove_entries_preserves
    (rm : string → bool → Disk → option (bool * Disk)) (nm : string)
    (flag : bool) (entries : list DirectoryEntry) (d d' : Disk) :
  (∀ nm' d1 r, P d1 → rm nm' flag d1 = Some r → P r.2) →
  P d → Remove_entries rm nm flag entries d = Some d' → P d'.
Proof.
  intros Hrm; revert d; induction entries as [|e rest IH]; intros d Hd; simpl.
  - by intros [= <-].
  - destruct (inUse e); [|by apply IH].
    case_decide; [discriminate|].
    destruct (rm _ flag d) as [r|] eqn:Hr; simpl; [|discriminate].
    apply IH. by eapply Hrm.
Qed.

Lemma Remove_preserves (fuel : nat) (nm : string) (flag : bool)
    (d : Disk) (r : bool * Disk) :
  P d → Remove fuel nm flag d = Some r → P r.2.
Proof.
  revert nm d r; induction fuel as [|fuel IH]; intros nm d r Hd;
    [discriminate|].
  cbn [Remove].
  destruct (split_name nm) as [[directory fileName]|]; simpl; [|discriminate].
  destruct (FindFormRoot d _ directory) as [nds|]; simpl; [|discriminate].
  case_decide; [by intros [= <-]|].
  destruct (_ || _); [by intros [= <-]|].
  destruct (_ && flag).
  - destruct (Remove_entries _ nm flag _ d) as [d0|] eqn:Hsub; simpl;
      [|discriminate].
    intros [= <-]. simpl.
    apply Remove_entries_preserves in Hsub; [|by apply IH | done].
    apply P_Directory_store; [|by apply Q_Remove, Q_load].
    apply P_FreeMap_store, P_Directory_store; [done | by apply Q_load].
  - simpl. intros [= <-]. simpl.
    apply P_Directory_store; [|by apply Q_Remove, Q_load].
    by apply P_FreeMap_store.
Qed.

End RemovePreserves.


End DiskFacts.

(** ** Remove: the header chain *)

Section ChainFacts.
Context `{Collab}.







(** The write-backs of a recursive Remove of a directory end with the
    table of the directory as it was loaded before the children were
    removed, the bitmap and the parent table. *)
Lemma Remove_directory_journal (fuel : nat) (nm : string) (d d' : Disk)
    (directory fileName : string) (nowDirectorySector : Z) :
  split_name nm = Some (directory, fileName) →
  FindFormRoot d (Directory_load d NumDirEntries DirectorySector) directory
    = Some nowDirectorySector →
  Remove fuel nm true d = Some (true, d') →
  let nowDirectory := Directory_load d NumDirEntries nowDirectorySector in
  let sector := Find nowDirectory fileName in
  GetFlag nowDirectory fileName = true →
  ∃ d0 freeMap,
    journal d' = journal d0
                 ++ [WDirectory sector (Directory_load d NumDirEntries sector);
                     WFreeMap freeMap;
                     WDirectory nowDirectorySector
                       (Directory_Remove nowDirectory fileName).2].
Proof.
  intros Hsplit Hres Hrm nowDirectory sector Hdir.
  destruct fuel as [|fuel]; [discriminate|]. cbn [Remove] in Hrm.
  rewrite Hsplit in Hrm. simpl in Hrm. rewrite Hres in Hrm. simpl in Hrm.
  case_decide; [discriminate|].
  destruct (_ || _); [discriminate|].
  fold nowDirectory sector in Hrm. rewrite Hdir in Hrm. simpl in Hrm.
  destruct (Remove_entries _ nm true _ d) as [d0|] eqn:Hsub; simpl in Hrm;
    [|discriminate].
  injection Hrm as <-. simpl. eexists d0, _.
  by rewrite <- !app_assoc.
Qed.

End ChainFacts.

(** ** Names in use stay pairwise different *)

Section UniqueNames.
Context `{Collab}.

Lemma Directory_List_cons (e : DirectoryEntry) (table : list DirectoryEntry) :
  Directory_List (e :: table) =
  if inUse e then name e :: Directory_List table else Directory_List table.
Proof.
  unfold Directory_List. rewrite filter_cons.
  destruct (inUse e); case_decide; done.
Qed.

Lemma Directory_List_app (l1 l2 : list DirectoryEntry) :
  Directory_List (l1 ++ l2) = Directory_List l1 ++ Directory_List l2.
Proof. unfold Directory_List. by rewrite filter_app, fmap_app. Qed.

Lemma Directory_List_new (n : nat) : Directory_List (Directory_new n) = [].
Proof.
  induction n as [|n IH]; [reflexivity|].
  unfold Directory_new. simpl. by rewrite Directory_List_cons.
Qed.

Lemma Directory_List_elem (table : list DirectoryEntry) (x : string) :
  x ∈ Directory_List table ↔ ∃ e, e ∈ table ∧ inUse e = true ∧ name e = x.
Proof.
  unfold Directory_List. rewrite list_elem_of_fmap. split.
  - intros (e & -> & He). apply list_elem_of_filter in He as [Hu Hin]. eauto.
  - intros (e & Hin & Hu & <-). exists e. split; [done|].
    by apply list_elem_of_filter.
Qed.

Lemma unique_inuse_new (n : nat) : unique_inuse (Directory_new n).
Proof. unfold unique_inuse. rewrite Directory_List_new. constructor. Qed.

Lemma Directory_List_release (table : list DirectoryEntry) (i : nat)
    (e : DirectoryEntry) :
  Directory_List (<[i := release e]> table) `sublist_of` Directory_List table.
Proof.
  revert i; induction table as [|x table IH]; intros i; [done|].
  destruct i as [|i]; simpl.
  - rewrite !Directory_List_cons. simpl.
    destruct (inUse x); [by apply sublist_cons | done].
  - rewrite !Directory_List_cons.
    destruct (inUse x); [by apply sublist_skip | apply IH].
Qed.

Lemma Directory_Remove_unique (table : list DirectoryEntry) (nm : string) :
  unique_inuse table → unique_inuse (Directory_Remove table nm).2.
Proof.
  unfold Directory_Remove, unique_inuse. case_decide; simpl; [done|].
  intros Huniq. eapply sublist_NoDup; [exact Huniq|].
  apply Directory_List_release.
Qed.

Lemma Add_unique (table table' : list DirectoryEntry) (nm : string)
    (newSector : Z) (flag : bool) :
  unique_inuse table → Add table nm newSector flag = (true, table') →
  unique_inuse table'.
Proof.
  unfold unique_inuse, Add. intros Huniq.
  case_decide as Hidx; [discriminate|].
  destruct (Add_loop table nm newSector flag) as [r|] eqn:Hloop; [|discriminate].
  intros [= <-].
  assert (Hfresh : strn FileNameMaxLen nm ∉ Directory_List table).
  { intros (e & Hin & Hu & Hn)%Directory_List_elem.
    assert (Hfound : FindIndex table nm ≠ -1); [|done].
    apply FindIndex_found_iff. exists e. repeat split; try done.
    by rewrite Hn, strn_idemp. }
  apply Add_loop_Some in Hloop as (l1 & e & l2 & -> & _ & He & ->).
  rewrite Directory_List_app, Directory_List_cons in *. simpl.
  rewrite He in *. rewrite <- Permutation_middle.
  by apply NoDup_cons.
Qed.

Lemma disk_unique_load (d : Disk) (s : Z) :
  disk_unique d → unique_inuse (Directory_load d NumDirEntries s).
Proof.
  intros Hd. unfold Directory_load, stored_at.
  destruct (fileData d !! s) as [stored|] eqn:Hs; simpl.
  - by apply (map_Forall_lookup_1 _ _ _ _ Hd Hs).
  - apply unique_inuse_new.
Qed.

Lemma disk_unique_Directory_store (d : Disk) (s : Z)
    (table : list DirectoryEntry) :
  disk_unique d → unique_inuse table ∧ length table = NumDirEntries →
  disk_unique (Directory_store d s table).
Proof.
  intros Hd [Huniq Hlen]. unfold disk_unique, Directory_store. simpl.
  apply map_Forall_insert_2; [|done].
  by rewrite FetchFrom_WriteBack.
Qed.

Lemma Create_body_unique (d d' : Disk) (nowDirectorySector : Z)
    (fileName : string) (initialSize : Z) (directoryFlag success : bool)
    (sector : option Z) :
  disk_unique d →
  Create_body d nowDirectorySector fileName initialSize directoryFlag
    = (success, sector, d') →
  disk_unique d'.
Proof.
  intros Hd. unfold Create_body.
  case_decide; [by intros [= <- <- <-]|].
  destruct (Bitmap.FindAndSet (FreeMap_load d)) as [sec freeMap].
  case_decide; [by intros [= <- <- <-]|].
  destruct (Add _ fileName sec directoryFlag) as [[] table'] eqn:Hadd;
    [|by intros [= <- <- <-]].
  destruct (Allocate freeMap _) as [[hdr freeMap']|]; [|by intros [= <- <- <-]].
  intros [= <- <- <-].
  apply (disk_unique_Directory_store (FileHeader_store d sec hdr)); [done|].
  split.
  - eapply Add_unique; [|done]. by apply disk_unique_load.
  - rewrite (Add_length _ _ _ _ _ Hadd). apply Directory_load_length.
Qed.

Lemma Create_unique (nm : string) (initialSize : Z) (directoryFlag : bool)
    (d : Disk) (r : bool * Disk) :
  disk_unique d → Create nm initialSize directoryFlag d = Some r →
  disk_unique r.2.
Proof.
  intros Hd. unfold Create.
  destruct (split_name nm) as [[directory fileName]|]; simpl; [|discriminate].
  destruct (FindFormRoot d _ directory) as [nds|]; simpl; [|discriminate].
  case_decide; [|by intros [= <-]].
  destruct (Create_body d nds fileName initialSize directoryFlag)
    as [[success sector] d1] eqn:Hbody.
  apply Create_body_unique in Hbody; [|done].
  destruct directoryFlag; [|by intros [= <-]].
  destruct sector as [s|]; simpl; [|discriminate].
  destruct (OpenFile_new s) as [file|]; simpl; [|discriminate].
  intros [= <-]. simpl. apply disk_unique_Directory_store; [done|].
  split; [apply unique_inuse_new | apply Directory_new_length].
Qed.

Lemma Remove_unique (fuel : nat) (nm : string) (flag : bool)
    (d : Disk) (r : bool * Disk) :
  disk_unique d → Remove fuel nm flag d = Some r → disk_unique r.2.
Proof.
  apply (Remove_preserves disk_unique
           (λ table, unique_inuse table ∧ length table = NumDirEntries)).
  - apply disk_unique_Directory_store.
  - done.
  - intros d' s Hd'. split;
      [by apply disk_unique_load | apply Directory_load_length].
  - intros table nm' [Hu Hl]. split;
      [by apply Directory_Remove_unique | by rewrite Directory_Remove_length].
Qed.

(** C5: if no directory table on the disk has two entries in use with the
    same name, then after any sequence of Create and Remove operations none
    has. *)
Theorem run_ops_unique_names (fuel : nat) (ops : list Op) (d d' : Disk) :
  disk_unique d → run_ops fuel ops d = Some d' → disk_unique d'.
Proof.
  revert d; induction ops as [|o ops IH]; intros d Hd; simpl.
  - by intros [= <-].
  - destruct (run_op fuel o d) as [d1|] eqn:Hop; simpl; [|discriminate].
    apply IH. destruct o as [nm size flag|nm flag]; simpl in Hop.
    + destruct (Create nm size flag d) as [r|] eqn:Hc; simplify_eq/=.
      by eapply Create_unique.
    + destruct (Remove fuel nm flag d) as [r|] eqn:Hr; simplify_eq/=.
      by eapply Remove_unique.
Qed.

End UniqueNames.

(** The formatted disk is a starting point: its only table, the root
    directory, has no name in use. *)
Lemma formatted_unique (n : nat) : disk_unique (Nachos.formatted n).
Proof.
  unfold Nachos.formatted, disk_unique.
  destruct (Nachos.Allocate _ _) as [[mapHdr freeMap]|];
    [|apply map_Forall_empty].
  destruct (Nachos.Allocate _ _) as [[dirHdr freeMap']|];
    [|apply map_Forall_empty].
  simpl. apply map_Forall_singleton.
  unfold FetchFrom.
  rewrite take_ge, drop_ge, app_nil_r by (rewrite ?Directory_new_length; lia).
  apply unique_inuse_new.
Qed.

(** ** Create: what reaches the disk *)

Section CreateFacts.
Context `{Collab}.

(** The end of Create, from [if (directoryFlag)] on. *)
Lemma Create_tail_inv (directoryFlag success b : bool) (sector : option Z)
    (d0 d' : Disk) :
  (if directoryFlag
   then s ← sector;
        newDirectoryFile ← OpenFile_new s;
        Some (success, Directory_store d0 newDirectoryFile
                         (Directory_new NumDirEntries))
   else Some (success, d0)) = Some (b, d') →
  success = b ∧
  (if directoryFlag
   then ∃ s, sector = Some s ∧ 0 <= s ∧
             d' = Directory_store d0 s (Directory_new NumDirEntries)
   else d' = d0).
Proof.
  destruct directoryFlag; [|by intros [= <- <-]].
  destruct sector as [s|]; [|discriminate]. cbn [mbind option_bind].
  destruct (OpenFile_new s) as [file|] eqn:Hfile; [|discriminate].
  apply OpenFile_new_Some in Hfile as [-> Hpos].
  cbn [mbind option_bind]. intros [= <- <-]. split; [done|]. by exists s.
Qed.

Lemma Create_body_failure (d d' : Disk) (nowDirectorySector : Z)
    (fileName : string) (initialSize : Z) (directoryFlag : bool)
    (sector : option Z) :
  Create_body d nowDirectorySector fileName initialSize directoryFlag
    = (false, sector, d') →
  d' = d.
Proof.
  unfold Create_body.
  case_decide; [by intros [= <- <-]|].
  destruct (Bitmap.FindAndSet (FreeMap_load d)) as [sec freeMap].
  case_decide; [by intros [= <- <-]|].
  destruct (Add _ fileName sec directoryFlag) as [[] table'];
    [|by intros [= <- <-]].
  destruct (Allocate freeMap _) as [[hdr freeMap']|]; [|by intros [= <- <-]].
  discriminate.
Qed.

(** X1: a Create of a plain file that fails leaves the disk, journal
    included, as it was. *)
Lemma Create_failure_plain_file (nm : string) (initialSize : Z) (d d' : Disk) :
  Create nm initialSize false d = Some (false, d') → d' = d.
Proof.
  unfold Create.
  destruct (split_name nm) as [[directory fileName]|]; simpl; [|discriminate].
  destruct (FindFormRoot d _ directory) as [nds|]; simpl; [|discriminate].
  case_decide; [|by intros [= <-]].
  destruct (Create_body d nds fileName initialSize false)
    as [[success sector] d1] eqn:Hbody.
  intros [= -> <-]. by apply Create_body_failure in Hbody.
Qed.

(** A Create of a directory that fails after the parent was resolved has
    written a fresh table through the sector it had picked. *)
Lemma Create_failure_directory (nm directory fileName : string)
    (initialSize nowDirectorySector : Z) (d d' : Disk) :
  split_name nm = Some (directory, fileName) →
  FindFormRoot d (Directory_load d NumDirEntries DirectorySector) directory
    = Some nowDirectorySector →
  0 <= nowDirectorySector →
  Create nm initialSize true d = Some (false, d') →
  ∃ sector, d' = Directory_store d sector (Directory_new NumDirEntries) ∧
            journal d' = journal d
                         ++ [WDirectory sector (Directory_new NumDirEntries)].
Proof.
  intros Hsplit Hres Hpos. unfold Create. rewrite Hsplit. simpl.
  rewrite Hres. simpl. case_decide; [|lia].
  destruct (Create_body d nowDirectorySector fileName initialSize true)
    as [[success sector] d1] eqn:Hbody.
  destruct sector as [s|]; simpl; [|discriminate].
  destruct (OpenFile_new s) as [file|]; simpl; [|discriminate].
  intros [= -> <-]. apply Create_body_failure in Hbody as ->.
  by exists file.
Qed.

(** X5: a Create that returns TRUE has written, in this order and nothing
    else: the header that [Allocate] filled, to the sector that [FindAndSet]
    picked in the bitmap loaded from the disk; the table of the parent
    directory with the file name added for that sector and flag, to the
    sector the parent resolved to; the bitmap as [Allocate] left it; and for
    a directory a fresh table through the new sector. *)
Lemma Create_success_journal (nm : string) (initialSize : Z)
    (directoryFlag : bool) (d d' : Disk) (directory fileName : string)
    (nowDirectorySector : Z) :
  split_name nm = Some (directory, fileName) →
  FindFormRoot d (Directory_load d NumDirEntries DirectorySector) directory
    = Some nowDirectorySector →
  Create nm initialSize directoryFlag d = Some (true, d') →
  let nowDirectory := Directory_load d NumDirEntries nowDirectorySector in
  let sector := (Bitmap.FindAndSet (FreeMap_load d)).1 in
  let size := if directoryFlag then DirectoryFileSize else initialSize in
  ∃ hdr freeMap,
    Allocate (Bitmap.FindAndSet (FreeMap_load d)).2 size = Some (hdr, freeMap) ∧
    (Add nowDirectory fileName sector directoryFlag).1 = true ∧
    journal d' =
      journal d
      ++ [WHeader sector hdr;
          WDirectory nowDirectorySector
            (Add nowDirectory fileName sector directoryFlag).2;
          WFreeMap freeMap]
      ++ (if directoryFlag
          then [WDirectory sector (Directory_new NumDirEntries)]
          else []).
Proof.
  intros Hsplit Hres. unfold Create. rewrite Hsplit. cbn [mbind option_bind].
  rewrite Hres. cbn [mbind option_bind].
  case_decide; [|discriminate].
  assert (Hfalse : ∀ (sec : option Z) (d0 : Disk),
            (if directoryFlag
             then sector ← sec;
                  newDirectoryFile ← OpenFile_new sector;
                  Some (false, Directory_store d0 newDirectoryFile
                                 (Directory_new NumDirEntries))
             else Some (false, d0)) ≠ Some (true, d')).
  { intros sec d0. destruct directoryFlag; [|discriminate].
    destruct sec as [s|]; [|discriminate]. cbn [mbind option_bind].
    destruct (OpenFile_new s); discriminate. }
  unfold Create_body.
  case_decide; [intros Hc; by apply Hfalse in Hc|].
  destruct (Bitmap.FindAndSet (FreeMap_load d)) as [sec freeMap].
  case_decide; [intros Hc; by apply Hfalse in Hc|]. cbn [fst snd].
  destruct (Add _ fileName sec directoryFlag) as [[] table'];
    [|intros Hc; by apply Hfalse in Hc].
  destruct (Allocate freeMap _) as [[hdr freeMap']|];
    [|intros Hc; by apply Hfalse in Hc].
  intros Hcreate. exists hdr, freeMap'. split; [done|]. split; [done|].
  destruct directoryFlag; cbn [mbind option_bind] in Hcreate.
  - destruct (OpenFile_new sec) as [file|] eqn:Hfile; [|discriminate].
    apply OpenFile_new_Some in Hfile as [-> _].
    cbn [mbind option_bind] in Hcreate. injection Hcreate as <-.
    simpl. by rewrite <- !app_assoc.
  - injection Hcreate as <-. simpl. by rewrite <- !app_assoc.
Qed.

End CreateFacts.

(** ** Remove: more fuel changes nothing *)

Section RemoveFuel.
Context `{Collab}.

Lemma Remove_entries_mono
    (rm rm' : string → bool → Disk → option (bool * Disk)) (nm : string)
    (flag : bool) (entries : list DirectoryEntry) (d d' : Disk) :
  (∀ nm' d1 r, rm nm' flag d1 = Some r → rm' nm' flag d1 = Some r) →
  Remove_entries rm nm flag entries d = Some d' →
  Remove_entries rm' nm flag entries d = Some d'.
Proof.
  intros Hrm; revert d; induction entries as [|e rest IH]; intros d; simpl;
    [done|].
  destruct (inUse e); [|apply IH].
  case_decide; [discriminate|].
  destruct (rm _ flag d) as [r|] eqn:Hr; simpl; [|discriminate].
  rewrite (Hrm _ _ _ Hr). simpl. apply IH.
Qed.

Lemma Remove_fuel_mono (fuel : nat) (nm : string) (flag : bool)
    (d : Disk) (r : bool * Disk) :
  Remove fuel nm flag d = Some r → Remove (S fuel) nm flag d = Some r.
Proof.
  revert nm d r; induction fuel as [|fuel IH]; intros nm d r; [discriminate|].
  intros Hrm. cbn [Remove] in Hrm. cbn [Remove].
  destruct (split_name nm) as [[directory fileName]|]; simpl in *; [|done].
  destruct (FindFormRoot d _ directory) as [nds|]; simpl in *; [|done].
  case_decide; [done|].
  destruct (_ || _); [done|].
  destruct (_ && flag); [|done].
  destruct (Remove_entries (Remove fuel) nm flag _ d) as [d0|] eqn:Hsub;
    simpl in Hrm; [|discriminate].
  apply (Remove_entries_mono _ (Remove (S fuel))) in Hsub; [|intros; by apply IH].
  cbn [Remove] in Hsub. by rewrite Hsub.
Qed.

End RemoveFuel.

(** * The code on concrete disks *)

Section Evaluations.
#[local] Existing Instance Nachos.collab.

(** C1: on the small device with 8 free sectors, Create of the directory /e
    picks sector 13, fails for lack of data sectors and returns FALSE, and
    has nevertheless written a fresh directory table through sector 13: the
    journal of the disk has one more write-back and the file in sector 13
    has contents it did not have. *)
Theorem Create_failed_directory_is_written :
  (d ← Scenario.nearly_full;
   r ← Create "/e" 0 true d;
   Some (r.1, drop (length (journal d)) (journal r.2),
         Bitmap.NumClear (freeMapData d),
         fileData d !! 13, fileData r.2 !! 13))
  = Some (false, [WDirectory 13 (Directory_new NumDirEntries)], 8,
          None, Some (Directory_new NumDirEntries)).
Proof. vm_compute. reflexivity. Qed.

(** C2: /f is a plain file (its entry in the root has [dFlag] false) that
    took over the sectors of a removed directory; resolving /f/x descends
    through the entry of /f, reads the contents of the file as a directory
    table and returns sector 24 instead of -1. *)
Theorem FindFormRoot_descends_through_plain_file :
  (d ← Scenario.with_f;
   let root := Directory_load d NumDirEntries DirectorySector in
   s ← FindFormRoot d root "/f/x";
   Some (filter (λ e, inUse e = true) root, s))
  = Some ([mkEntry true 13 "/f" false], 24).
Proof. vm_compute. reflexivity. Qed.

(** C3: the recursive Remove of /d, which holds /d/x, returns TRUE; the
    removal of /d/x writes the table of /d without names in use to sector
    13, and the outer Remove then writes the table it had loaded before,
    with /x in use, over it: that is what sector 13 holds in the end. *)
Theorem Remove_recursive_writes_back_loaded_table :
  (d ← Scenario.with_d_x;
   r ← Remove 2 "/d" true d;
   Some (r.1,
         Directory_List (stored_at d 13),
         directory_writes 13 (drop (length (journal d)) (journal r.2)),
         Directory_List (stored_at r.2 13)))
  = Some (true, ["/x"%string], [[]; ["/x"%string]], ["/x"%string]).
Proof. vm_compute. reflexivity. Qed.

(** C4: Openfile of /a returns slot 1; Close of 1 returns 1 and leaves in
    slot 1 the pointer to the deleted handle, not the null pointer; the next
    Openfile passes slot 1 by and returns 2. *)
Theorem Close_leaves_slot_claimed :
  (d ← Scenario.with_a;
   r1 ← Openfile "/a" d Scenario.no_handles;
   r2 ← Close r1.1 r1.2;
   r3 ← Openfile "/a" d r2.2;
   Some (r1.1, r2.1, r2.2 !! 1%nat, r3.1))
  = Some (1, 1, Some (Deleted 13), 2).
Proof. vm_compute. reflexivity. Qed.

(** Five operations on the fresh device, a refused duplicate among them. *)
Lemma run_ops_unique_names_witness :
  disk_unique Scenario.fresh ∧
  match run_ops 2 [OpCreate "/d" 0 true; OpCreate "/d/x" 100 false;
                   OpCreate "/d/x" 7 false; OpRemove "/d" true;
                   OpCreate "/f" 1280 false] Scenario.fresh with
  | Some d' => disk_unique d'
  | None => False
  end.
Proof.
  assert (Hfresh : disk_unique Scenario.fresh)
    by (apply (bool_decide_unpack _); vm_compute; exact I).
  split; [exact Hfresh|].
  destruct (run_ops 2 _ Scenario.fresh) as [d'|] eqn:Hrun.
  - exact (run_ops_unique_names 2 _ Scenario.fresh d' Hfresh Hrun).
  - vm_compute in Hrun. discriminate Hrun.
Defined.

(** Slot 1 is taken, slot 2 is the lowest slot that is free. *)
Lemma Openfile_claims_lowest_free_slot_witness :
  match Scenario.with_a with
  | Some d =>
      let t := <[1%nat := Live 13]> Scenario.no_handles in
      length t = 20%nat ∧
      FindFormRoot d (Directory_load d NumDirEntries DirectorySector) "/a"
        = Some 13 ∧
      Openfile "/a" d t = Some (2, <[2%nat := Live 13]> t)
  | None => False
  end.
Proof.
  destruct Scenario.with_a as [d|] eqn:Hd; [|vm_compute in Hd; discriminate Hd].
  assert (Hres : FindFormRoot d (Directory_load d NumDirEntries DirectorySector)
                   "/a" = Some 13).
  { vm_compute in Hd. injection Hd as <-. vm_compute. reflexivity. }
  assert (Hlen : length (<[1%nat := Live 13]> Scenario.no_handles) = 20%nat)
    by (vm_compute; reflexivity).
  simpl. split; [exact Hlen|]. split; [exact Hres|].
  apply (Openfile_claims_lowest_free_slot "/a" d
           (<[1%nat := Live 13]> Scenario.no_handles) 13 Hlen Hres);
    [lia | lia | reflexivity |].
  intros j Hj. assert (j = 1) as -> by lia. discriminate.
Defined.


End Evaluations.

(** * More of the code *)

(** ** Paths made of components *)

Lemma append_cons (a : ascii) (s t : string) :
  String.append (String a s) t = String a (String.append s t).
Proof. reflexivity. Qed.

Lemma append_empty_r (s : string) : String.append s EmptyString = s.
Proof. induction s as [|a s IH]; [reflexivity|]. by rewrite append_cons, IH. Qed.

Lemma append_snoc (t c : string) (a : ascii) :
  String.append (snoc_char t a) c = String.append t (String a c).
Proof.
  unfold snoc_char. induction t as [|b t IH]; [reflexivity|].
  by rewrite !append_cons, IH.
Qed.

Lemma append_length (s t : string) :
  String.length (String.append s t) = (String.length s + String.length t)%nat.
Proof.
  induction s as [|a s IH]; [reflexivity|]. rewrite append_cons. simpl.
  by rewrite IH.
Qed.

Lemma strn_append (c rest : string) :
  strn (String.length c) (String.append c rest) = c.
Proof.
  induction c as [|a c IH]; [reflexivity|]. rewrite append_cons. simpl.
  by rewrite IH.
Qed.

Lemma strn_append_short (n : nat) (c rest : string) :
  (n <= String.length c)%nat → strn n (String.append c rest) = strn n c.
Proof.
  revert c; induction n as [|n IH]; intros [|a c] Hn; try reflexivity.
  - simpl in Hn. lia.
  - rewrite append_cons. simpl in *. rewrite IH; [reflexivity | lia].
Qed.

Lemma advance_append (c rest : string) :
  advance (String.length c) (String.append c rest) = Some rest.
Proof. induction c as [|a c IH]; [reflexivity|]. by rewrite append_cons. Qed.

Lemma strtok_all_run (t c rest : string) :
  slash_free c = true →
  strtok_all (Some t) (String.append c rest)
  = strtok_all (Some (String.append t c)) rest.
Proof.
  revert t; induction c as [|a c IH]; intros t Hc.
  - by rewrite append_empty_r.
  - simpl in Hc. apply andb_true_iff in Hc as [Ha Hc].
    rewrite append_cons. cbn [strtok_all].
    destruct (is_slash a); [discriminate|]. simpl.
    by rewrite IH, append_snoc.
Qed.

(** The first token of '/', a component and what follows it. *)
Lemma tokens_component (c rest : string) :
  c ≠ EmptyString → slash_free c = true →
  tokens (String "/" (String.append c rest)) = strtok_all (Some c) rest.
Proof.
  intros Hne Hc. destruct c as [|a c]; [done|].
  simpl in Hc. apply andb_true_iff in Hc as [Ha Hc].
  unfold tokens. rewrite append_cons. cbn [strtok_all].
  change (is_slash "/") with true. cbn [strtok_all].
  destruct (is_slash a); [discriminate|]. simpl.
  rewrite (strtok_all_run _ c rest Hc). by rewrite append_snoc.
Qed.

(** ** Resolution of paths made of components *)

Section ComponentFacts.
Context `{Collab}.

Lemma find_FindIndex_loop (table : list DirectoryEntry) (i : Z) (nm : string) :
  0 <= i →
  match List.find (entry_matches nm) table with
  | None => FindIndex_loop table i nm = -1
  | Some e => i <= FindIndex_loop table i nm ∧
              table !! Z.to_nat (FindIndex_loop table i nm - i) = Some e
  end.
Proof.
  revert i; induction table as [|x rest IH]; intros i Hi; simpl; [done|].
  destruct (entry_matches nm x).
  - split; [lia|]. by replace (i - i) with 0 by lia.
  - specialize (IH (i + 1) ltac:(lia)).
    destruct (List.find _ rest) as [e|]; [|done].
    destruct IH as [Hle Hat]. split; [lia|].
    replace (Z.to_nat (FindIndex_loop rest (i + 1) nm - i))
      with (S (Z.to_nat (FindIndex_loop rest (i + 1) nm - (i + 1)))) by lia.
    done.
Qed.

(** The loop of [FindFormRoot] and [FindIndex] stop at the same entry. *)
Lemma find_Find (table : list DirectoryEntry) (nm : string) :
  match List.find (entry_matches nm) table with
  | None => FindIndex table nm = -1 ∧ Find table nm = -1
  | Some e => FindIndex table nm ≠ -1 ∧ Find table nm = sector e ∧
              GetFlag table nm = dFlag e
  end.
Proof.
  pose proof (find_FindIndex_loop table 0 nm ltac:(lia)) as Hfind.
  unfold Find, GetFlag, FindIndex, table_at.
  destruct (List.find _ table) as [e|].
  - destruct Hfind as [Hle Hat]. rewrite Z.sub_0_r in Hat.
    split; [lia|]. case_decide; [|lia]. by rewrite Hat.
  - rewrite Hfind. split; [done|]. by case_decide.
Qed.

(** One level of [FindFormRoot] on a path that starts with '/' and a
    component. *)
Lemma FindFormRoot_component (d : Disk) (table : list DirectoryEntry)
    (c rest : string) :
  c ≠ EmptyString → slash_free c = true →
  rest = EmptyString ∨ (∃ r, rest = String "/" r) →
  strlen (String "/" (String.append c rest)) <= 255 →
  strlen c + 1 <= Z.of_nat FileNameMaxLen →
  FindFormRoot d table (String "/" (String.append c rest)) =
    match List.find (entry_matches (String "/" c)) table with
    | None => Some (-1)
    | Some e =>
        if decide (rest = EmptyString) then Some (sector e)
        else FindFormRoot d (Directory_load d 64 (sector e)) rest
    end.
Proof.
  intros Hne Hc Hrest Hlen Hbuf.
  rewrite (FindFormRoot_step d table _ c); try done.
  - replace (String.length c + 1)%nat with (S (String.length c)) by lia.
    cbn [advance]. by rewrite advance_append.
  - intros [= Happ]. destruct c; [done | discriminate].
  - rewrite tokens_component by done.
    destruct Hrest as [->|[r ->]]; [reflexivity|].
    cbn [strtok_all]. by change (is_slash "/") with true.
Qed.

(** X2: a path of one component resolves to what [Find] returns for '/'
    and the component: the sector of the first entry in use that matches,
    -1 when there is none. *)
Theorem FindFormRoot_one_component (d : Disk) (table : list DirectoryEntry)
    (c : string) :
  c ≠ EmptyString → slash_free c = true →
  strlen c + 1 <= Z.of_nat FileNameMaxLen → strlen c <= 254 →
  FindFormRoot d table (String "/" c) = Some (Find table (String "/" c)).
Proof.
  intros Hne Hc Hbuf Hlen.
  pose proof (FindFormRoot_component d table c EmptyString Hne Hc) as Hstep.
  rewrite append_empty_r in Hstep. rewrite Hstep; try done; [|by left|].
  - pose proof (find_Find table (String "/" c)) as Hfind.
    destruct (List.find _ table) as [e|].
    + destruct Hfind as (_ & -> & _). by case_decide.
    + by destruct Hfind as [_ ->].
  - unfold strlen in *. simpl. lia.
Qed.

(** X3: a path of a component and more resolves to -1 when no entry in use
    matches the component, and otherwise to what the rest of the path
    resolves to in the table loaded from the sector that [Find] returns. *)
Theorem FindFormRoot_descends (d : Disk) (table : list DirectoryEntry)
    (c r : string) :
  c ≠ EmptyString → slash_free c = true → r ≠ EmptyString →
  strlen c + 1 <= Z.of_nat FileNameMaxLen →
  strlen (String "/" (String.append c (String "/" r))) <= 255 →
  FindFormRoot d table (String "/" (String.append c (String "/" r))) =
    if decide (FindIndex table (String "/" c) = -1) then Some (-1)
    else FindFormRoot d (Directory_load d 64 (Find table (String "/" c)))
                      (String "/" r).
Proof.
  intros Hne Hc Hr Hbuf Hlen.
  rewrite FindFormRoot_component; try done; [|right; by eexists].
  pose proof (find_Find table (String "/" c)) as Hfind.
  destruct (List.find _ table) as [e|].
  - destruct Hfind as (Hidx & -> & _). case_decide; [done|]. by case_decide.
  - destruct Hfind as [-> _]. by case_decide.
Qed.

(** X4: a path of one component with a '/' after it does not resolve to the
    sector of the entry: when an entry in use matches the component, the
    recursion meets the path "/" in the table of the entry and returns 1,
    the sector of the root directory. *)
Theorem FindFormRoot_trailing_slash (d : Disk) (table : list DirectoryEntry)
    (c : string) :
  c ≠ EmptyString → slash_free c = true →
  strlen c + 1 <= Z.of_nat FileNameMaxLen → strlen c <= 253 →
  FindFormRoot d table (String "/" (String.append c "/")) =
    if decide (FindIndex table (String "/" c) = -1) then Some (-1) else Some 1.
Proof.
  intros Hne Hc Hbuf Hlen.
  rewrite FindFormRoot_component; try done; [|right; by eexists|].
  - pose proof (find_Find table (String "/" c)) as Hfind.
    destruct (List.find _ table) as [e|].
    + destruct Hfind as (Hidx & _). case_decide; [done|]. by case_decide.
    + destruct Hfind as [-> _]. by case_decide.
  - unfold strlen in *. simpl. rewrite append_length. simpl. lia.
Qed.

Lemma split_loop_nil (fileName : string) (len : Z) :
  split_loop [] fileName len = Some (fileName, len).
Proof. reflexivity. Qed.

(** The prologue of Create and Remove cuts a path of one component into
    the directory "/" and the file name '/' and the component. *)
Lemma split_name_one_component (c : string) :
  c ≠ EmptyString → slash_free c = true → strlen c <= 8 →
  split_name (String "/" c) = Some ("/"%string, String "/" c).
Proof.
  intros Hne Hc Hlen. unfold split_name.
  case_decide as Hbig; [unfold strlen in *; simpl in Hbig; lia|].
  pose proof (tokens_component c EmptyString Hne Hc) as Htok.
  rewrite append_empty_r in Htok. rewrite Htok. cbn [strtok_all].
  case_decide; [lia|]. reflexivity.
Qed.

(** X6: for a path of two components the directory is cut off after as many
    characters as the second component has, plus one: it is the first
    component when the two have the same length, a proper prefix of it when
    the second is shorter. *)
Theorem split_name_two_components (a b : string) :
  a ≠ EmptyString → slash_free a = true → strlen a <= 8 →
  b ≠ EmptyString → slash_free b = true → strlen b <= 8 →
  let nm := String "/" (String.append a (String "/" b)) in
  split_name nm = Some (strn (S (String.length b)) nm, String "/" b) ∧
  (String.length a = String.length b →
     strn (S (String.length b)) nm = String "/" a) ∧
  ((String.length b < String.length a)%nat →
     strn (S (String.length b)) nm = String "/" (strn (String.length b) a)).
Proof.
  intros Ha Hsa Hla Hb Hsb Hlb nm. split; [|split].
  - unfold split_name, nm.
    case_decide as Hbig;
      [unfold strlen in *; simpl in Hbig; rewrite append_length in Hbig;
       simpl in Hbig; lia|].
    rewrite tokens_component by done. cbn [strtok_all].
    change (is_slash "/") with true. cbn [strtok_all].
    pose proof (tokens_component b EmptyString Hb Hsb) as Htok.
    rewrite append_empty_r in Htok. unfold tokens in Htok.
    cbn [strtok_all] in Htok. change (is_slash "/") with true in Htok.
    cbn [strtok_all] in Htok. rewrite Htok.
    case_decide; [lia|]. cbn [split_loop]. case_decide; [lia|].
    cbn [split_loop mbind option_bind].
    case_decide as Hz; [unfold strlen in Hz; lia|].
    do 2 f_equal. f_equal. unfold strlen. lia.
  - intros Heq. unfold nm. cbn [strn]. by rewrite <- Heq, strn_append.
  - intros Hlt. unfold nm. cbn [strn]. rewrite strn_append_short; [done | lia].
Qed.

End ComponentFacts.

(** ** Add and Remove on one table: what they keep and what they undo *)

Section TableFacts.
Context `{Collab}.

Lemma FindIndex_loop_decompose (table : list DirectoryEntry) (i : Z)
    (nm : string) :
  FindIndex_loop table i nm ≠ -1 →
  ∃ l1 e l2,
    table = l1 ++ e :: l2 ∧
    Forall (λ x, entry_matches nm x = false) l1 ∧
    entry_matches nm e = true ∧
    FindIndex_loop table i nm = i + Z.of_nat (length l1).
Proof.
  revert i; induction table as [|x rest IH]; intros i; simpl; [done|].
  destruct (entry_matches nm x) eqn:Hx.
  - intros _. exists [], x, rest. repeat split; try done. simpl. lia.
  - intros Hrec. destruct (IH _ Hrec) as (l1 & e & l2 & -> & Hl1 & He & Hidx).
    exists (x :: l1), e, l2. repeat split; try done; [by constructor|].
    rewrite Hidx. simpl. lia.
Qed.

Lemma find_replace (l1 l2 : list DirectoryEntry) (x y : DirectoryEntry)
    (nm : string) :
  entry_matches nm x = false → entry_matches nm y = false →
  List.find (entry_matches nm) (l1 ++ x :: l2)
  = List.find (entry_matches nm) (l1 ++ y :: l2).
Proof.
  intros Hx Hy. induction l1 as [|z l1 IH]; simpl.
  - by rewrite Hx, Hy.
  - by rewrite IH.
Qed.

Lemma FindIndex_loop_replace (l1 l2 : list DirectoryEntry)
    (x y : DirectoryEntry) (i : Z) (nm : string) :
  entry_matches nm x = false → entry_matches nm y = false →
  FindIndex_loop (l1 ++ x :: l2) i nm = FindIndex_loop (l1 ++ y :: l2) i nm.
Proof.
  intros Hx Hy. revert i; induction l1 as [|z l1 IH]; intros i; simpl.
  - by rewrite Hx, Hy.
  - by rewrite IH.
Qed.

(** The three lookups see the same thing in two tables that differ in one
    entry which the name matches in neither. *)
Lemma lookups_replace (l1 l2 : list DirectoryEntry) (x y : DirectoryEntry)
    (nm : string) :
  entry_matches nm x = false → entry_matches nm y = false →
  FindIndex (l1 ++ x :: l2) nm = FindIndex (l1 ++ y :: l2) nm ∧
  Find (l1 ++ x :: l2) nm = Find (l1 ++ y :: l2) nm ∧
  GetFlag (l1 ++ x :: l2) nm = GetFlag (l1 ++ y :: l2) nm.
Proof.
  intros Hx Hy. split; [by apply FindIndex_loop_replace|].
  pose proof (find_Find (l1 ++ x :: l2) nm) as Hfx.
  pose proof (find_Find (l1 ++ y :: l2) nm) as Hfy.
  rewrite (find_replace l1 l2 x y nm Hx Hy) in Hfx.
  destruct (List.find _ (l1 ++ y :: l2)) as [e|].
  - destruct Hfx as (_ & -> & ->), Hfy as (_ & -> & ->). done.
  - destruct Hfx as [Hix Hx'], Hfy as [Hiy Hy']. rewrite Hx', Hy'.
    split; [done|]. unfold GetFlag. rewrite Hix, Hiy. done.
Qed.

Lemma release_no_match (nm : string) (e : DirectoryEntry) :
  entry_matches nm (release e) = false.
Proof. reflexivity. Qed.

Lemma free_no_match (nm : string) (e : DirectoryEntry) :
  inUse e = false → entry_matches nm e = false.
Proof. intros He. unfold entry_matches. by rewrite He. Qed.

Lemma other_prefix_no_match (nm nm' : string) (e : DirectoryEntry) :
  strn FileNameMaxLen nm' ≠ strn FileNameMaxLen nm →
  strn FileNameMaxLen (name e) = strn FileNameMaxLen nm →
  entry_matches nm' e = false.
Proof.
  intros Hne He. destruct (entry_matches nm' e) eqn:Hm; [|done].
  apply entry_matches_true in Hm as [_ Hm]. congruence.
Qed.

(** What [Directory::Remove] does to a table that holds the name. *)
Lemma Directory_Remove_decompose (table : list DirectoryEntry) (nm : string) :
  FindIndex table nm ≠ -1 →
  ∃ l1 e l2,
    table = l1 ++ e :: l2 ∧
    Forall (λ x, entry_matches nm x = false) l1 ∧
    entry_matches nm e = true ∧
    Directory_Remove table nm = (true, l1 ++ release e :: l2).
Proof.
  intros Hfound. unfold FindIndex in Hfound.
  destruct (FindIndex_loop_decompose table 0 nm Hfound)
    as (l1 & e & l2 & -> & Hl1 & He & Hidx).
  exists l1, e, l2. repeat split; try done.
  unfold Directory_Remove, FindIndex, table_at. rewrite Hidx.
  case_decide; [lia|]. f_equal.
  replace (Z.to_nat (0 + Z.of_nat (length l1))) with (length l1 + 0)%nat by lia.
  rewrite insert_app_r. rewrite Nat.add_0_r, list_lookup_middle by done. done.
Qed.

(** X7: a successful Add leaves the lookup of every name with other first
    [FileNameMaxLen] characters as it was. *)
Theorem Add_keeps_other_names (table table' : list DirectoryEntry)
    (nm nm' : string) (newSector : Z) (flag : bool) :
  Add table nm newSector flag = (true, table') →
  strn FileNameMaxLen nm' ≠ strn FileNameMaxLen nm →
  FindIndex table' nm' = FindIndex table nm' ∧
  Find table' nm' = Find table nm' ∧
  GetFlag table' nm' = GetFlag table nm'.
Proof.
  unfold Add. case_decide; [discriminate|].
  destruct (Add_loop table nm newSector flag) as [r|] eqn:Hloop; [|discriminate].
  intros [= <-] Hne.
  apply Add_loop_Some in Hloop as (l1 & e & l2 & -> & _ & He & ->).
  pose proof (lookups_replace l1 l2
                (mkEntry true newSector (strn FileNameMaxLen nm) flag) e nm')
    as Hsame.
  apply Hsame; [|by apply free_no_match].
  apply (other_prefix_no_match nm); [done|]. simpl. apply strn_idemp.
Qed.

(** X8: a successful [Directory::Remove] keeps the length of the table and
    leaves the lookup of every name with other first [FileNameMaxLen]
    characters as it was. *)
Theorem Directory_Remove_keeps_other_names (table table' : list DirectoryEntry)
    (nm nm' : string) :
  Directory_Remove table nm = (true, table') →
  strn FileNameMaxLen nm' ≠ strn FileNameMaxLen nm →
  length table' = length table ∧
  FindIndex table' nm' = FindIndex table nm' ∧
  Find table' nm' = Find table nm' ∧
  GetFlag table' nm' = GetFlag table nm'.
Proof.
  intros Hrm Hne.
  assert (Hfound : FindIndex table nm ≠ -1).
  { unfold Directory_Remove in Hrm. by case_decide. }
  destruct (Directory_Remove_decompose table nm Hfound)
    as (l1 & e & l2 & -> & _ & He & Hrm').
  rewrite Hrm' in Hrm. injection Hrm as <-.
  split; [by rewrite !length_app|].
  apply lookups_replace; [apply release_no_match|].
  apply entry_matches_true in He as [_ He].
  by apply (other_prefix_no_match nm).
Qed.

Lemma names_bounded_Remove (table : list DirectoryEntry) (nm : string) :
  names_bounded table → names_bounded (Directory_Remove table nm).2.
Proof.
  intros Hbound.
  destruct (decide (FindIndex table nm = -1)) as [Hnone|Hfound].
  { unfold Directory_Remove. by case_decide. }
  destruct (Directory_Remove_decompose table nm Hfound)
    as (l1 & e & l2 & -> & _ & _ & ->). simpl.
  unfold names_bounded in *. apply Forall_app in Hbound as [Hb1 Hb2].
  apply Forall_cons in Hb2 as [_ Hb2].
  apply Forall_app. split; [done|]. by constructor.
Qed.

Lemma names_bounded_Add (table table' : list DirectoryEntry) (nm : string)
    (newSector : Z) (flag : bool) :
  names_bounded table → Add table nm newSector flag = (true, table') →
  names_bounded table'.
Proof.
  intros Hbound. unfold Add. case_decide; [discriminate|].
  destruct (Add_loop table nm newSector flag) as [r|] eqn:Hloop; [|discriminate].
  intros [= <-].
  apply Add_loop_Some in Hloop as (l1 & e & l2 & -> & _ & _ & ->).
  unfold names_bounded in *. apply Forall_app in Hbound as [Hb1 Hb2].
  apply Forall_cons in Hb2 as [_ Hb2].
  apply Forall_app. split; [done|]. constructor; [|done].
  intros _. simpl. clear. generalize FileNameMaxLen as n.
  intros n; revert nm; induction n as [|n IH]; intros [|a nm]; simpl;
    try lia. specialize (IH nm). lia.
Qed.

(** In a table whose names in use are pairwise different and fit the name
    field, no entry matches the name after [Directory::Remove]. *)
Lemma Directory_Remove_FindIndex (table : list DirectoryEntry) (nm : string) :
  unique_inuse table → names_bounded table →
  FindIndex (Directory_Remove table nm).2 nm = -1.
Proof.
  intros Huniq Hbound.
  destruct (decide (FindIndex table nm = -1)) as [Hnone|Hfound].
  { unfold Directory_Remove. by case_decide. }
  destruct (Directory_Remove_decompose table nm Hfound)
    as (l1 & e & l2 & -> & Hl1 & He & ->). simpl.
  unfold FindIndex. apply FindIndex_loop_none; [lia|].
  apply Forall_app. split; [done|]. constructor; [apply release_no_match|].
  apply Forall_forall. intros e2 Hin.
  destruct (entry_matches nm e2) eqn:He2; [exfalso | done].
  apply entry_matches_true in He as [Hu He].
  apply entry_matches_true in He2 as [Hu2 He2].
  unfold names_bounded in Hbound.
  apply Forall_app in Hbound as [_ Hbound].
  apply Forall_cons in Hbound as [Hbe Hb2].
  rewrite Forall_forall in Hb2.
  rewrite strn_short in He by auto.
  rewrite strn_short in He2 by (apply Hb2; auto).
  unfold unique_inuse in Huniq.
  rewrite Directory_List_app, Directory_List_cons, Hu in Huniq.
  apply NoDup_app in Huniq as (_ & _ & Hnd).
  apply NoDup_cons in Hnd as [Hnotin _]. apply Hnotin.
  apply Directory_List_elem. exists e2. repeat split; try done. congruence.
Qed.

(** X9: in a table whose names in use are pairwise different and fit the
    name field, [Directory::Remove] makes the name absent: afterwards Find
    returns -1 for it, whether Remove found it or not, the table still has
    pairwise different names that fit, and when Remove found the name, Add
    of the same name succeeds again. *)
Theorem Directory_Remove_then_Find (table : list DirectoryEntry) (nm : string) :
  unique_inuse table → names_bounded table →
  let table' := (Directory_Remove table nm).2 in
  Find table' nm = -1 ∧
  unique_inuse table' ∧ names_bounded table' ∧
  ((Directory_Remove table nm).1 = true →
     ∀ newSector flag, (Add table' nm newSector flag).1 = true).
Proof.
  intros Huniq Hbound table'.
  pose proof (Directory_Remove_FindIndex table nm Huniq Hbound) as Hidx.
  fold table' in Hidx.
  split; [unfold Find; rewrite Hidx; by case_decide|].
  split; [by apply Directory_Remove_unique|].
  split; [by apply names_bounded_Remove|].
  intros Hok newSector flag. unfold Add. rewrite Hidx.
  case_decide; [done|].
  destruct (Add_loop table' nm newSector flag) as [r|] eqn:Hloop; [done|].
  apply Add_loop_None in Hloop. exfalso.
  assert (Hfound : FindIndex table nm ≠ -1).
  { unfold Directory_Remove in Hok. by case_decide. }
  destruct (Directory_Remove_decompose table nm Hfound)
    as (l1 & e & l2 & -> & _ & _ & Hrm).
  unfold table' in Hloop. rewrite Hrm in Hloop. simpl in Hloop.
  apply Forall_app in Hloop as [_ Hloop].
  apply Forall_cons in Hloop as [Hrel _]. discriminate Hrel.
Qed.

(** X10: the entry that [Directory::Remove] released can be claimed again:
    after a successful Remove, Add of any name that is not in the table
    succeeds. *)
Theorem Directory_Remove_then_Add (table table' : list DirectoryEntry)
    (nm nm2 : string) (newSector : Z) (flag : bool) :
  Directory_Remove table nm = (true, table') →
  FindIndex table' nm2 = -1 →
  (Add table' nm2 newSector flag).1 = true.
Proof.
  intros Hrm Hfree.
  assert (Hfound : FindIndex table nm ≠ -1).
  { unfold Directory_Remove in Hrm. by case_decide. }
  destruct (Directory_Remove_decompose table nm Hfound)
    as (l1 & e & l2 & -> & _ & _ & Hrm').
  rewrite Hrm' in Hrm. injection Hrm as <-.
  unfold Add. case_decide; [done|].
  destruct (Add_loop _ nm2 newSector flag) as [r|] eqn:Hloop; [done|].
  apply Add_loop_None in Hloop. apply Forall_app in Hloop as [_ Hloop].
  apply Forall_cons in Hloop as [Hrel _]. discriminate Hrel.
Qed.

End TableFacts.

(** ** Create of a path of one component, and what follows it *)

Section CreateOneComponent.
Context `{Collab}.

Lemma FindFormRoot_root (d : Disk) (table : list DirectoryEntry) :
  FindFormRoot d table "/" = Some 1.
Proof. reflexivity. Qed.

Lemma find_clear_spec (m : Bitmap.t) (i : Z) :
  0 <= i →
  Bitmap.find_clear m i = -1 ∨
  (i <= Bitmap.find_clear m i ∧
   m !! Z.to_nat (Bitmap.find_clear m i - i) = Some false).
Proof.
  revert i; induction m as [|b m IH]; intros i Hi; simpl; [by left|].
  destruct b.
  - destruct (IH (i + 1) ltac:(lia)) as [->|[Hle Hat]]; [by left|].
    right. split; [lia|].
    replace (Z.to_nat (Bitmap.find_clear m (i + 1) - i))
      with (S (Z.to_nat (Bitmap.find_clear m (i + 1) - (i + 1)))) by lia.
    done.
  - right. split; [lia|]. by replace (i - i) with 0 by lia.
Qed.

(** [FindAndSet] returns -1 or a sector that was clear. *)
Lemma FindAndSet_clear (m : Bitmap.t) :
  (Bitmap.FindAndSet m).1 = -1 ∨
  (0 <= (Bitmap.FindAndSet m).1 ∧
   Bitmap.Test m (Bitmap.FindAndSet m).1 = false).
Proof.
  unfold Bitmap.FindAndSet.
  destruct (find_clear_spec m 0 ltac:(lia)) as [Hnone|[Hle Hat]].
  - rewrite Hnone. left. by case_decide.
  - case_decide as Hw; [by left|]. right. simpl. split; [done|].
    unfold Bitmap.Test. case_decide; [|done].
    rewrite Z.sub_0_r in Hat. by rewrite Hat.
Qed.

Lemma Directory_load_store_same (d : Disk) (s : Z)
    (table : list DirectoryEntry) (n : nat) :
  length table = n → Directory_load (Directory_store d s table) n s = table.
Proof.
  intros Hlen. unfold Directory_load, Directory_store, stored_at. simpl.
  rewrite lookup_insert_eq. simpl. by apply FetchFrom_WriteBack.
Qed.

Lemma Directory_load_store_other (d : Disk) (s s' : Z)
    (table : list DirectoryEntry) (n : nat) :
  s ≠ s' → Directory_load (Directory_store d s table) n s' = Directory_load d n s'.
Proof.
  intros Hne. unfold Directory_load, Directory_store, stored_at. simpl.
  by rewrite lookup_insert_ne.
Qed.

Lemma find_first_match (l1 l2 : list DirectoryEntry) (e : DirectoryEntry)
    (nm : string) :
  Forall (λ x, entry_matches nm x = false) l1 → entry_matches nm e = true →
  List.find (entry_matches nm) (l1 ++ e :: l2) = Some e.
Proof.
  intros Hl1 He. induction Hl1 as [|x l1 Hx _ IH]; simpl.
  - by rewrite He.
  - by rewrite Hx.
Qed.

(** After a successful Add the name is found, with the sector and the flag
    that were given. *)
Lemma Add_then_lookup (table table' : list DirectoryEntry) (nm : string)
    (newSector : Z) (flag : bool) :
  Add table nm newSector flag = (true, table') →
  FindIndex table' nm ≠ -1 ∧ Find table' nm = newSector ∧
  GetFlag table' nm = flag.
Proof.
  unfold Add. case_decide as Hnot; [discriminate|].
  destruct (Add_loop table nm newSector flag) as [r|] eqn:Hloop; [|discriminate].
  intros [= <-].
  apply Add_loop_Some in Hloop as (l1 & e & l2 & -> & _ & He & ->).
  assert (Hl1 : Forall (λ x, entry_matches nm x = false) l1).
  { assert (Hall : FindIndex (l1 ++ e :: l2) nm = -1)
      by (by destruct (decide (FindIndex (l1 ++ e :: l2) nm = -1))).
    unfold FindIndex in Hall. apply FindIndex_loop_none in Hall; [|lia].
    by apply Forall_app in Hall as [? _]. }
  pose proof (find_Find
    (l1 ++ mkEntry true newSector (strn FileNameMaxLen nm) flag :: l2) nm)
    as Hfind.
  assert (Hthe : List.find (entry_matches nm)
            (l1 ++ mkEntry true newSector (strn FileNameMaxLen nm) flag :: l2)
          = Some (mkEntry true newSector (strn FileNameMaxLen nm) flag)).
  { apply find_first_match; [done|]. apply entry_matches_true. simpl.
    by rewrite strn_idemp. }
  rewrite Hthe in Hfind. done.
Qed.

(** What a successful Create of a path of one component leaves: the root
    table with the name added, loaded again from the disk; the sector of
    the header, which was clear in the bitmap; and for a directory the
    fresh table in that sector. *)
Lemma Create_one_component_inv (c : string) (initialSize : Z)
    (directoryFlag : bool) (d d' : Disk) :
  c ≠ EmptyString → slash_free c = true → strlen c <= 8 →
  Bitmap.Test (freeMapData d) DirectorySector = true →
  Create (String "/" c) initialSize directoryFlag d = Some (true, d') →
  let root := Directory_load d NumDirEntries DirectorySector in
  let sector := Bitmap.find_clear (freeMapData d) 0 in
  ∃ table',
    Add root (String "/" c) sector directoryFlag = (true, table') ∧
    Directory_load d' NumDirEntries DirectorySector = table' ∧
    0 <= sector ∧ Bitmap.Test (freeMapData d) sector = false ∧
    (directoryFlag = true →
       Directory_load d' NumDirEntries sector = Directory_new NumDirEntries).
Proof.
  intros Hne Hc Hlen Hroot. unfold Create.
  rewrite split_name_one_component by done. cbn [mbind option_bind].
  rewrite FindFormRoot_root. cbn [mbind option_bind]. case_decide; [|lia].
  unfold Create_body.
  case_decide; [intros Hcr; by apply Create_tail_inv in Hcr as [? _]|].
  pose proof (FindAndSet_clear (FreeMap_load d)) as Hfree.
  assert (Hsec : (Bitmap.FindAndSet (FreeMap_load d)).1
                 = Bitmap.find_clear (freeMapData d) 0).
  { unfold Bitmap.FindAndSet, FreeMap_load. by case_decide. }
  destruct (Bitmap.FindAndSet (FreeMap_load d)) as [sec freeMap].
  simpl in Hfree, Hsec. subst sec.
  case_decide as Hfull;
    [intros Hcr; by apply Create_tail_inv in Hcr as [? _]|].
  destruct Hfree as [?|[Hpos Hclear]]; [done|].
  destruct (Add _ (String "/" c) _ directoryFlag) as [[] table'] eqn:Hadd;
    [|intros Hcr; by apply Create_tail_inv in Hcr as [? _]].
  destruct (Allocate freeMap _) as [[hdr freeMap']|];
    [|intros Hcr; by apply Create_tail_inv in Hcr as [? _]].
  assert (Hlen' : length table' = NumDirEntries).
  { rewrite (Add_length _ _ _ _ _ Hadd). apply Directory_load_length. }
  assert (Hne1 : Bitmap.find_clear (freeMapData d) 0 ≠ DirectorySector).
  { intros Heq. unfold FreeMap_load in Hclear. rewrite Heq in Hclear.
    congruence. }
  intros Hres. apply Create_tail_inv in Hres as [_ Hres].
  exists table'. split; [done|].
  destruct directoryFlag.
  - destruct Hres as (s & [= <-] & _ & ->).
    split; [|split; [done|split; [done|]]].
    + rewrite Directory_load_store_other by done.
      by apply (Directory_load_store_same (FileHeader_store d _ hdr)).
    + intros _. apply Directory_load_store_same, Directory_new_length.
  - subst d'. split; [|split; [done|split; [done|done]]].
    by apply (Directory_load_store_same (FileHeader_store d _ hdr)).
Qed.

End CreateOneComponent.

Section CreateThenUse.
Context `{Collab}.

(** A path of one component resolves to the sector of the entry at which
    the loop of [FindFormRoot] stops. *)
Lemma FindFormRoot_one_find (d : Disk) (table : list DirectoryEntry)
    (c : string) :
  c ≠ EmptyString → slash_free c = true → strlen c <= 8 →
  strlen c + 1 <= Z.of_nat FileNameMaxLen →
  FindFormRoot d table (String "/" c) =
    Some (match List.find (entry_matches (String "/" c)) table with
          | Some e => sector e
          | None => -1
          end).
Proof.
  intros Hne Hc Hlen Hbuf.
  pose proof (FindFormRoot_component d table c EmptyString Hne Hc) as Hstep.
  rewrite append_empty_r in Hstep. rewrite Hstep; try done.
  - destruct (List.find _ table) as [e|]; [|done]. by case_decide.
  - by left.
  - unfold strlen in *. simpl. lia.
Qed.

Lemma resolve_after_Add (d : Disk) (table table' : list DirectoryEntry)
    (c : string) (newSector : Z) (flag : bool) :
  c ≠ EmptyString → slash_free c = true → strlen c <= 8 →
  strlen c + 1 <= Z.of_nat FileNameMaxLen →
  Add table (String "/" c) newSector flag = (true, table') →
  FindFormRoot d table' (String "/" c) = Some newSector.
Proof.
  intros Hne Hc Hlen Hbuf Hadd. rewrite FindFormRoot_one_find by done.
  apply Add_then_lookup in Hadd as (Hidx & Hfind & _).
  pose proof (find_Find table' (String "/" c)) as Hff.
  destruct (List.find _ table') as [e|]; [|by destruct Hff].
  destruct Hff as (_ & Hs & _). congruence.
Qed.

(** X11: after a Create of a path of one component that returned TRUE, on a
    disk whose bitmap has the sector of the root directory marked, the path
    resolves to the sector that was the lowest clear bit of the bitmap, and
    Open returns a handle on that sector. *)
Theorem Create_then_resolve (c : string) (initialSize : Z)
    (directoryFlag : bool) (d d' : Disk) :
  c ≠ EmptyString → slash_free c = true → strlen c <= 8 →
  strlen c + 1 <= Z.of_nat FileNameMaxLen →
  Bitmap.Test (freeMapData d) DirectorySector = true →
  Create (String "/" c) initialSize directoryFlag d = Some (true, d') →
  let sector := Bitmap.find_clear (freeMapData d) 0 in
  Bitmap.Test (freeMapData d) sector = false ∧
  FindFormRoot d' (Directory_load d' NumDirEntries DirectorySector)
    (String "/" c) = Some sector ∧
  Open (String "/" c) d' = Some (Some sector).
Proof.
  intros Hne Hc Hlen Hbuf Hroot Hcreate sector.
  destruct (Create_one_component_inv c initialSize directoryFlag d d'
              Hne Hc Hlen Hroot Hcreate)
    as (table' & Hadd & Hload & Hpos & Hclear & _).
  fold sector in Hadd, Hpos, Hclear.
  assert (Hres : FindFormRoot d'
            (Directory_load d' NumDirEntries DirectorySector) (String "/" c)
          = Some sector).
  { rewrite Hload. by eapply resolve_after_Add. }
  split; [done|]. split; [done|].
  unfold Open. rewrite Hres. simpl. by case_decide.
Qed.

(** X12: after a Create of a path of one component that returned TRUE, a
    Create of the same path as a plain file returns FALSE and leaves the
    disk, journal included, as it is. *)
Theorem Create_again_fails (c : string) (initialSize size2 : Z)
    (directoryFlag : bool) (d d' : Disk) :
  c ≠ EmptyString → slash_free c = true → strlen c <= 8 →
  Bitmap.Test (freeMapData d) DirectorySector = true →
  Create (String "/" c) initialSize directoryFlag d = Some (true, d') →
  Create (String "/" c) size2 false d' = Some (false, d').
Proof.
  intros Hne Hc Hlen Hroot Hcreate.
  destruct (Create_one_component_inv c initialSize directoryFlag d d'
              Hne Hc Hlen Hroot Hcreate)
    as (table' & Hadd & Hload & Hpos & _).
  apply Add_then_lookup in Hadd as (_ & Hfind & _).
  unfold Create. rewrite split_name_one_component by done.
  cbn [mbind option_bind]. rewrite FindFormRoot_root.
  cbn [mbind option_bind]. case_decide; [|lia].
  unfold Create_body.
  change (Directory_load d' NumDirEntries 1)
    with (Directory_load d' NumDirEntries DirectorySector).
  rewrite Hload, Hfind. case_decide; [done | lia].
Qed.

(** X13: a directory that Create has just made, by a path of one component,
    lists as empty, with and without the recursive flag. *)
Theorem Create_directory_lists_empty (c : string) (initialSize : Z)
    (fuel : nat) (d d' : Disk) :
  c ≠ EmptyString → slash_free c = true → strlen c <= 8 →
  strlen c + 1 <= Z.of_nat FileNameMaxLen →
  Bitmap.Test (freeMapData d) DirectorySector = true →
  Create (String "/" c) initialSize true d = Some (true, d') →
  List fuel (String "/" c) false d' = Some [] ∧
  List (S fuel) (String "/" c) true d' = Some [].
Proof.
  intros Hne Hc Hlen Hbuf Hroot Hcreate.
  destruct (Create_one_component_inv c initialSize true d d'
              Hne Hc Hlen Hroot Hcreate)
    as (table' & Hadd & Hload & Hpos & Hclear & Hnew).
  specialize (Hnew eq_refl).
  assert (Hres : FindFormRoot d'
            (Directory_load d' NumDirEntries DirectorySector) (String "/" c)
          = Some (Bitmap.find_clear (freeMapData d) 0)).
  { rewrite Hload. by eapply resolve_after_Add. }
  unfold List. rewrite Hres. cbn [mbind option_bind].
  rewrite (proj2 (OpenFile_new_Some _ _) (conj eq_refl Hpos)).
  cbn [mbind option_bind]. unfold List_sector.
  rewrite Hnew. split; [by rewrite Directory_List_new | reflexivity].
Qed.

End CreateThenUse.

(** ** Remove: failure, plain files, and what follows *)

Section RemoveFacts.
Context `{Collab}.

(** X14: a Remove that returns FALSE has written nothing: the disk, journal
    included, is as it was. *)
Theorem Remove_failure_keeps_disk (fuel : nat) (nm : string) (flag : bool)
    (d d' : Disk) :
  Remove fuel nm flag d = Some (false, d') → d' = d.
Proof.
  destruct fuel as [|fuel]; [discriminate|]. cbn [Remove].
  destruct (split_name nm) as [[directory fileName]|]; simpl; [|discriminate].
  destruct (FindFormRoot d _ directory) as [nds|]; simpl; [|discriminate].
  case_decide; [by intros [= <-]|].
  destruct (_ || _); [by intros [= <-]|].
  destruct (_ && flag); [|discriminate].
  by destruct (Remove_entries _ nm flag _ d).
Qed.

(** X15: the Remove of a plain file needs one level only and always
    returns: it writes the bitmap, with the data sectors handed to
    [Deallocate] and the header chain cleared, and then the parent table
    with the entry released, and nothing else. *)
Theorem Remove_plain_file (fuel : nat) (nm : string) (flag : bool) (d : Disk)
    (directory fileName : string) (nowDirectorySector : Z) :
  split_name nm = Some (directory, fileName) →
  FindFormRoot d (Directory_load d NumDirEntries DirectorySector) directory
    = Some nowDirectorySector →
  nowDirectorySector ≠ -1 →
  let nowDirectory := Directory_load d NumDirEntries nowDirectorySector in
  let sector := Find nowDirectory fileName in
  let fileHdr := FileHeader_load d sector in
  let freeMap := clear_chain fileHdr sector (Deallocate fileHdr (freeMapData d)) in
  let table' := (Directory_Remove nowDirectory fileName).2 in
  sector ≠ -1 → GetFlag nowDirectory fileName = false →
  ∃ d',
    Remove (S fuel) nm flag d = Some (true, d') ∧
    journal d' = journal d
                 ++ [WFreeMap freeMap; WDirectory nowDirectorySector table'] ∧
    headers d' = headers d ∧ freeMapData d' = freeMap ∧
    Directory_load d' NumDirEntries nowDirectorySector = table'.
Proof.
  intros Hsplit Hres Hnds nowDirectory sector fileHdr freeMap table' Hsec Hflag.
  cbn [Remove]. rewrite Hsplit. cbn [mbind option_bind]. rewrite Hres.
  cbn [mbind option_bind]. case_decide; [done|].
  fold nowDirectory. fold sector. rewrite Hflag.
  rewrite bool_decide_eq_false_2 by done. simpl.
  eexists. split; [reflexivity|]. simpl.
  split; [by rewrite <- app_assoc|]. split; [done|]. split; [done|].
  apply (Directory_load_store_same (FreeMap_store d _)).
  unfold table'. rewrite Directory_Remove_length. apply Directory_load_length.
Qed.

(** X16: after a Remove of a path of one component that returned TRUE, from
    a root table whose names in use are pairwise different and fit the name
    field, the path resolves to -1 and Open returns the null pointer. *)
Theorem Remove_then_unresolved (fuel : nat) (c : string) (flag : bool)
    (d d' : Disk) :
  c ≠ EmptyString → slash_free c = true → strlen c <= 8 →
  strlen c + 1 <= Z.of_nat FileNameMaxLen →
  unique_inuse (Directory_load d NumDirEntries DirectorySector) →
  names_bounded (Directory_load d NumDirEntries DirectorySector) →
  Remove fuel (String "/" c) flag d = Some (true, d') →
  FindFormRoot d' (Directory_load d' NumDirEntries DirectorySector)
    (String "/" c) = Some (-1) ∧
  Open (String "/" c) d' = Some None.
Proof.
  intros Hne Hc Hlen Hbuf Huniq Hbound Hrm.
  set (root := Directory_load d NumDirEntries DirectorySector) in *.
  assert (Hload : Directory_load d' NumDirEntries DirectorySector
                  = (Directory_Remove root (String "/" c)).2).
  { destruct fuel as [|fuel]; [discriminate|]. cbn [Remove] in Hrm.
    rewrite split_name_one_component in Hrm by done.
    cbn [mbind option_bind] in Hrm. rewrite FindFormRoot_root in Hrm.
    cbn [mbind option_bind] in Hrm. case_decide; [discriminate|].
    fold root in Hrm.
    destruct (_ || _); [discriminate|].
    assert (Hl : length (Directory_Remove root (String "/" c)).2
                 = NumDirEntries)
      by (rewrite Directory_Remove_length; apply Directory_load_length).
    destruct (_ && flag).
    - destruct (Remove_entries _ _ flag _ d) as [d0|]; simpl in Hrm;
        [|discriminate].
      injection Hrm as <-.
      by apply (Directory_load_store_same (FreeMap_store _ _)).
    - simpl in Hrm. injection Hrm as <-.
      by apply (Directory_load_store_same (FreeMap_store _ _)). }
  assert (Hres : FindFormRoot d'
            (Directory_load d' NumDirEntries DirectorySector) (String "/" c)
          = Some (-1)).
  { rewrite Hload, FindFormRoot_one_find by done. f_equal.
    pose proof (Directory_Remove_FindIndex root (String "/" c) Huniq Hbound)
      as Hidx.
    pose proof (find_Find (Directory_Remove root (String "/" c)).2
                  (String "/" c)) as Hff.
    destruct (List.find (entry_matches (String "/" c)) _) as [e|];
      [|reflexivity].
    destruct Hff as [Hfound _]. congruence. }
  split; [done|]. unfold Open. rewrite Hres. reflexivity.
Qed.

(** X17: for a table in which no entry in use is a subdirectory,
    [Directory::ListAll] prints what [Directory::List] prints, each name
    after the head, and needs one level only. *)
Theorem ListAll_flat (fuel : nat) (d : Disk) (table : list DirectoryEntry)
    (head : string) :
  Forall (λ e, inUse e = true → dFlag e = false) table →
  ListAll (S fuel) d table head
  = Some (String.append head <$> Directory_List table).
Proof.
  intros Hflat. cbn [ListAll].
  induction Hflat as [|e rest He _ IH]; [reflexivity|].
  cbn [foldr]. rewrite IH, Directory_List_cons.
  destruct (inUse e); [|done]. rewrite He by done. reflexivity.
Qed.

End RemoveFacts.

(** ** Descriptors: Openfile, Read, Write and Close together *)

Section DescriptorFacts.
Context `{Collab}.

Local Arguments Openfile_loop : simpl never.

(** What [Openfile] can have done when it returns. *)
Lemma Openfile_inv (nm : string) (d : Disk) (t t' : list OpenFilePtr) (r : Z) :
  Openfile nm d t = Some (r, t') →
  (r = -1 ∧ t' = t) ∨
  (∃ s, FindFormRoot d (Directory_load d NumDirEntries DirectorySector) nm
          = Some s ∧
        0 <= s ∧ 1 <= r < 20 ∧ t !! Z.to_nat r = Some NULL ∧
        t' = <[Z.to_nat r := Live s]> t).
Proof.
  unfold Openfile.
  destruct (FindFormRoot d _ nm) as [s|]; simpl; [|discriminate].
  case_decide; simpl.
  - destruct (Openfile_loop 19 1 t) as [[k|]|] eqn:Hloop; simpl.
    + apply Openfile_loop_inv in Hloop as [Hk Hnull].
      case_decide; [|lia].
      rewrite list_lookup_insert_eq by (by eapply lookup_lt_Some).
      simpl. intros [= <- <-]. right. exists s. repeat split; try done; lia.
    + intros [= <- <-]. by left.
    + discriminate.
  - intros [= <- <-]. by left.
Qed.

Lemma Close_inv (id : Z) (t t' : list OpenFilePtr) (r : Z) :
  Close id t = Some (r, t') →
  (r = -1 ∧ t' = t) ∨
  (∃ s, r = 1 ∧ 1 <= id < 20 ∧ t !! Z.to_nat id = Some (Live s) ∧
        t' = <[Z.to_nat id := Deleted s]> t).
Proof.
  unfold Close. case_decide; [|intros [= <- <-]; by left].
  destruct (t !! Z.to_nat id) as [[]|] eqn:Hp; simpl; try discriminate.
  - intros [= <- <-]. by left.
  - intros [= <- <-]. right. by eexists.
Qed.

Lemma null_filter_insert (l : list OpenFilePtr) (j : nat) (y x : OpenFilePtr) :
  l !! j = Some y → is_NULL x = false →
  (length (filter (λ p, is_NULL p = true) (<[j := x]> l))
   + (if is_NULL y then 1 else 0)
   = length (filter (λ p, is_NULL p = true) l))%nat.
Proof.
  revert j; induction l as [|p l IH]; intros j Hj Hx; [done|].
  destruct j as [|j]; simpl in *.
  - injection Hj as ->. rewrite !filter_cons.
    destruct (decide (is_NULL x = true)); [congruence|].
    destruct (is_NULL y); case_decide; simpl; try done; lia.
  - rewrite !filter_cons. case_decide; simpl; rewrite <- (IH j Hj Hx); lia.
Qed.

Lemma null_slots_insert (t : list OpenFilePtr) (r : Z) (y x : OpenFilePtr) :
  1 <= r → t !! Z.to_nat r = Some y → is_NULL x = false →
  (null_slots (<[Z.to_nat r := x]> t) + (if is_NULL y then 1 else 0)
   = null_slots t)%nat.
Proof.
  intros Hr Hy Hx. unfold null_slots.
  replace (Z.to_nat r) with (S (Z.to_nat (r - 1))) in * by lia.
  destruct t as [|p t]; [done|]. simpl in *. by apply null_filter_insert.
Qed.

(** X18: the descriptor that [Openfile] returns reaches, through Read and
    Write, the handle on the sector the path resolved to; the descriptors
    that were open before reach what they reached before. *)
Theorem Openfile_then_transfer (nm : string) (d : Disk)
    (t t' : list OpenFilePtr) (id : Z) :
  Openfile nm d t = Some (id, t') → id ≠ -1 →
  ∃ s, FindFormRoot d (Directory_load d NumDirEntries DirectorySector) nm
         = Some s ∧
       Write id t' = Some (OnHandle s) ∧ Read id t' = Some (OnHandle s) ∧
       ∀ j, j ≠ id → Write j t' = Write j t ∧ Read j t' = Read j t.
Proof.
  intros Hopen Hid.
  apply Openfile_inv in Hopen as [[? _]|(s & Hres & Hs & Hr & Hnull & ->)];
    [done|].
  exists s. split; [done|].
  assert (Hat : <[Z.to_nat id := Live s]> t !! Z.to_nat id = Some (Live s))
    by (rewrite list_lookup_insert_eq; [done | by eapply lookup_lt_Some]).
  unfold Write, Read. case_decide; [|lia]. rewrite Hat. simpl.
  split; [done|]. split; [done|].
  intros j Hj. case_decide; [|done].
  rewrite list_lookup_insert_ne by lia. done.
Qed.

(** X19: after a Close that returned 1 the descriptor is not refused: Read
    and Write on it call the handle that Close deleted, and a second Close
    deletes it again, all of which is undefined; other descriptors reach
    what they reached before. *)
Theorem Close_then_transfer (id : Z) (t t' : list OpenFilePtr) :
  Close id t = Some (1, t') →
  Write id t' = None ∧ Read id t' = None ∧ Close id t' = None ∧
  ∀ j, j ≠ id → Write j t' = Write j t ∧ Read j t' = Read j t.
Proof.
  intros Hclose.
  apply Close_inv in Hclose as [[? _]|(s & _ & Hr & Hlive & ->)]; [done|].
  assert (Hat : <[Z.to_nat id := Deleted s]> t !! Z.to_nat id
                = Some (Deleted s))
    by (rewrite list_lookup_insert_eq; [done | by eapply lookup_lt_Some]).
  unfold Write, Read, Close. case_decide; [|lia]. rewrite Hat. simpl.
  repeat split; try done;
    (case_decide; [|done]); by rewrite list_lookup_insert_ne by lia.
Qed.

(** X20: over any sequence of Openfile and Close calls, every Openfile
    that returns a descriptor uses up one of the slots 1 to 19 that hold
    the null pointer, and no call gives one back: with a table of 20 slots,
    at most 19 Openfile calls ever return a descriptor. *)
Theorem descriptors_are_used_up (d : Disk) (ops : list FdOp)
    (t t' : list OpenFilePtr) (k : nat) :
  length t = 20%nat →
  run_fd d ops t = Some (k, t') →
  (k + null_slots t' = null_slots t)%nat ∧ (k <= 19)%nat.
Proof.
  intros Hlen Hrun.
  assert (Hcount : (k + null_slots t' = null_slots t)%nat).
  { clear Hlen. revert t k Hrun.
    induction ops as [|[nm|id] ops IH]; intros t k; simpl.
    - intros [= <- <-]. done.
    - destruct (Openfile nm d t) as [[r t1]|] eqn:Hopen; simpl; [|discriminate].
      destruct (run_fd d ops t1) as [[n t2]|] eqn:Hrest; simpl; [|discriminate].
      intros [= <- <-]. apply IH in Hrest.
      apply Openfile_inv in Hopen as [[-> ->]|(s & _ & _ & Hr & Hnull & ->)].
      + by case_decide.
      + case_decide; [lia|].
        pose proof (null_slots_insert t r NULL (Live s) ltac:(lia) Hnull eq_refl)
          as Hins. simpl in Hins. lia.
    - destruct (Close id t) as [[r t1]|] eqn:Hclose; simpl; [|discriminate].
      intros Hrest. apply IH in Hrest.
      apply Close_inv in Hclose as [[_ ->]|(s & _ & Hr & Hlive & ->)]; [done|].
      pose proof (null_slots_insert t id (Live s) (Deleted s) ltac:(lia)
                    Hlive eq_refl) as Hins. simpl in Hins. lia. }
  split; [done|].
  assert (null_slots t <= 19)%nat; [|lia].
  unfold null_slots. etrans; [apply length_filter|].
  destruct t; simpl in *; lia.
Qed.

End DescriptorFacts.

(** ** List after a resolution that failed *)

Section ListFacts.
Context `{Collab}.


End ListFacts.

(** * More of the code on concrete disks *)

Section MoreEvaluations.
#[local] Existing Instance Nachos.collab.

(** A second Create of /a as a plain file. *)
Lemma Create_failure_plain_file_witness :
  ∃ d', Create "/a" 5 false Cases.with_a = Some (false, d') ∧
        d' = Cases.with_a.
Proof.
  destruct (Create "/a" 5 false Cases.with_a) as [[b d']|] eqn:Hc;
    [|vm_compute in Hc; discriminate Hc].
  assert (b = false) as ->
    by (vm_compute in Hc; injection Hc as <- _; reflexivity).
  exists d'. split; [reflexivity|].
  exact (Create_failure_plain_file "/a" 5 Cases.with_a d' Hc).
Defined.

(** The path /a in the root table that holds /a. *)
Lemma FindFormRoot_one_component_witness :
  FindFormRoot Cases.with_a
    (Directory_load Cases.with_a NumDirEntries DirectorySector) "/a"
  = Some (Find (Directory_load Cases.with_a NumDirEntries DirectorySector) "/a")
  ∧ Find (Directory_load Cases.with_a NumDirEntries DirectorySector) "/a" = 13.
Proof.
  split; [|vm_compute; reflexivity].
  apply (FindFormRoot_one_component Cases.with_a _ "a");
    [discriminate | reflexivity | vm_compute; discriminate
    | vm_compute; discriminate].
Defined.

(** The path /d/x: found in the root, then resolved in the table of /d. *)
Lemma FindFormRoot_descends_witness :
  let root := Directory_load Cases.with_d_x NumDirEntries DirectorySector in
  FindFormRoot Cases.with_d_x root "/d/x"
  = (if decide (FindIndex root "/d" = -1) then Some (-1)
     else FindFormRoot Cases.with_d_x
            (Directory_load Cases.with_d_x 64 (Find root "/d")) "/x").
Proof.
  apply (FindFormRoot_descends Cases.with_d_x _ "d" "x");
    [discriminate | reflexivity | discriminate | vm_compute; discriminate
    | vm_compute; discriminate].
Defined.

(** The path /d/ where /d is a directory in sector 13. *)
Lemma FindFormRoot_trailing_slash_witness :
  let root := Directory_load Cases.with_d_x NumDirEntries DirectorySector in
  Find root "/d" = 13 ∧ FindFormRoot Cases.with_d_x root "/d/" = Some 1.
Proof.
  split; [vm_compute; reflexivity|].
  etrans.
  - apply (FindFormRoot_trailing_slash Cases.with_d_x _ "d");
      [discriminate | reflexivity | vm_compute; discriminate
      | vm_compute; discriminate].
  - vm_compute. reflexivity.
Defined.

(** Create of the directory /d on the fresh device: the header to sector
    13, the root table with /d to sector 1, the bitmap with 24 sectors
    marked, and the fresh table through sector 13. *)
Lemma Create_success_journal_witness :
  ∃ d', Create "/d" 0 true Scenario.fresh = Some (true, d') ∧
        journal d' =
          [WHeader 13 (Hdr 1280 [14; 15; 16; 17; 18; 19; 20; 21; 22; 23]
                           (-1) None);
           WDirectory 1 (<[0%nat := mkEntry true 13 "/d" true]>
                           (Directory_new NumDirEntries));
           WFreeMap (replicate 24 true ++ replicate 40 false);
           WDirectory 13 (Directory_new NumDirEntries)].
Proof.
  destruct (Create "/d" 0 true Scenario.fresh) as [[b d']|] eqn:Hc;
    [|vm_compute in Hc; discriminate Hc].
  assert (b = true) as ->
    by (vm_compute in Hc; injection Hc as <- _; reflexivity).
  exists d'. split; [reflexivity|].
  destruct (Create_success_journal "/d" 0 true Scenario.fresh d' "/" "/d" 1
              eq_refl eq_refl Hc) as (hdr & freeMap & Halloc & _ & ->).
  vm_compute in Halloc. injection Halloc as <- <-.
  vm_compute. reflexivity.
Defined.

(** The path /dir/x is cut into /d and /x, the path /ab/cd into /ab and
    /cd. *)
Lemma split_name_two_components_witness :
  split_name "/dir/x" = Some ("/d"%string, "/x"%string) ∧
  split_name "/ab/cd" = Some ("/ab"%string, "/cd"%string).
Proof.
  split.
  - apply (split_name_two_components "dir" "x");
      [discriminate | reflexivity | vm_compute; discriminate
      | discriminate | reflexivity | vm_compute; discriminate].
  - apply (split_name_two_components "ab" "cd");
      [discriminate | reflexivity | vm_compute; discriminate
      | discriminate | reflexivity | vm_compute; discriminate].
Defined.

(** /b added to a table that holds /a. *)
Lemma Add_keeps_other_names_witness :
  Add (Add (Directory_new 3) "/a" 5 false).2 "/b" 6 true = (true, Cases.a_b) ∧
  Find Cases.a_b "/a" = Find (Add (Directory_new 3) "/a" 5 false).2 "/a" ∧
  Find Cases.a_b "/a" = 5.
Proof.
  split; [reflexivity|]. split; [|reflexivity].
  apply (Add_keeps_other_names (Add (Directory_new 3) "/a" 5 false).2
           Cases.a_b "/b" "/a" 6 true); [reflexivity|].
  vm_compute. discriminate.
Defined.

(** /a removed from the table that holds /a and /b. *)
Lemma Directory_Remove_keeps_other_names_witness :
  (Directory_Remove Cases.a_b "/a").1 = true ∧
  Find (Directory_Remove Cases.a_b "/a").2 "/b" = Find Cases.a_b "/b" ∧
  GetFlag (Directory_Remove Cases.a_b "/a").2 "/b" = true.
Proof.
  split; [reflexivity|]. split; [|reflexivity].
  apply (Directory_Remove_keeps_other_names Cases.a_b
           (Directory_Remove Cases.a_b "/a").2 "/a" "/b"); [reflexivity|].
  vm_compute. discriminate.
Defined.

Lemma Directory_Remove_then_Find_witness :
  unique_inuse Cases.a_b ∧ names_bounded Cases.a_b ∧
  Find Cases.a_b "/a" = 5 ∧
  Find (Directory_Remove Cases.a_b "/a").2 "/a" = -1.
Proof.
  assert (Hu : unique_inuse Cases.a_b)
    by (apply (bool_decide_unpack _); vm_compute; exact I).
  assert (Hb : names_bounded Cases.a_b)
    by (apply (bool_decide_unpack _); vm_compute; exact I).
  split; [exact Hu|]. split; [exact Hb|]. split; [reflexivity|].
  apply (Directory_Remove_then_Find Cases.a_b "/a" Hu Hb).
Defined.

(** /a released and /c added: Add takes the released entry. *)
Lemma Directory_Remove_then_Add_witness :
  Directory_Remove Cases.a_b "/a"
    = (true, (Directory_Remove Cases.a_b "/a").2) ∧
  (Add (Directory_Remove Cases.a_b "/a").2 "/c" 7 false).1 = true.
Proof.
  split; [reflexivity|].
  apply (Directory_Remove_then_Add Cases.a_b _ "/a" "/c" 7 false);
    reflexivity.
Defined.

(** Create of /a on the fresh device, then Open. *)
Lemma Create_then_resolve_witness :
  ∃ d', Create "/a" 10 false Scenario.fresh = Some (true, d') ∧
        Open "/a" d' = Some (Some 13).
Proof.
  destruct (Create "/a" 10 false Scenario.fresh) as [[b d']|] eqn:Hc;
    [|vm_compute in Hc; discriminate Hc].
  assert (b = true) as ->
    by (vm_compute in Hc; injection Hc as <- _; reflexivity).
  exists d'. split; [reflexivity|].
  destruct (Create_then_resolve "a" 10 false Scenario.fresh d') as (_ & _ & Ho);
    [discriminate | reflexivity | vm_compute; discriminate
    | vm_compute; discriminate | reflexivity | exact Hc | exact Ho].
Defined.

Lemma Create_again_fails_witness :
  ∃ d', Create "/a" 10 false Scenario.fresh = Some (true, d') ∧
        Create "/a" 3 false d' = Some (false, d').
Proof.
  destruct (Create "/a" 10 false Scenario.fresh) as [[b d']|] eqn:Hc;
    [|vm_compute in Hc; discriminate Hc].
  assert (b = true) as ->
    by (vm_compute in Hc; injection Hc as <- _; reflexivity).
  exists d'. split; [reflexivity|].
  apply (Create_again_fails "a" 10 3 false Scenario.fresh d');
    [discriminate | reflexivity | vm_compute; discriminate | reflexivity
    | exact Hc].
Defined.

Lemma Create_directory_lists_empty_witness :
  ∃ d', Create "/d" 0 true Scenario.fresh = Some (true, d') ∧
        List 0 "/d" false d' = Some [] ∧ List 1 "/d" true d' = Some [].
Proof.
  destruct (Create "/d" 0 true Scenario.fresh) as [[b d']|] eqn:Hc;
    [|vm_compute in Hc; discriminate Hc].
  assert (b = true) as ->
    by (vm_compute in Hc; injection Hc as <- _; reflexivity).
  exists d'. split; [reflexivity|].
  apply (Create_directory_lists_empty "d" 0 0 Scenario.fresh d');
    [discriminate | reflexivity | vm_compute; discriminate
    | vm_compute; discriminate | reflexivity | exact Hc].
Defined.

(** Remove of a path that is not there. *)
Lemma Remove_failure_keeps_disk_witness :
  ∃ d', Remove 1 "/nothere" false Scenario.fresh = Some (false, d') ∧
        d' = Scenario.fresh.
Proof.
  destruct (Remove 1 "/nothere" false Scenario.fresh) as [[b d']|] eqn:Hr;
    [|vm_compute in Hr; discriminate Hr].
  assert (b = false) as ->
    by (vm_compute in Hr; injection Hr as <- _; reflexivity).
  exists d'. split; [reflexivity|].
  exact (Remove_failure_keeps_disk 1 "/nothere" false Scenario.fresh d' Hr).
Defined.

(** Remove of the plain file /a, with more fuel than it needs. *)
Lemma Remove_plain_file_witness :
  ∃ d', Remove 3 "/a" false Cases.with_a = Some (true, d') ∧
        length (journal d') = (length (journal Cases.with_a) + 2)%nat ∧
        Bitmap.Test (freeMapData d') 13 = false.
Proof.
  destruct (Remove_plain_file 2 "/a" false Cases.with_a "/" "/a" 1)
    as (d' & Hrm & Hj & _ & Hm & _);
    [reflexivity | reflexivity | discriminate | vm_compute; discriminate
    | vm_compute; reflexivity |].
  exists d'. split; [exact Hrm|]. split.
  - rewrite Hj, length_app. reflexivity.
  - rewrite Hm. vm_compute. reflexivity.
Defined.

Lemma Remove_then_unresolved_witness :
  ∃ d', Remove 1 "/a" false Cases.with_a = Some (true, d') ∧
        Open "/a" Cases.with_a = Some (Some 13) ∧
        Open "/a" d' = Some None.
Proof.
  destruct (Remove 1 "/a" false Cases.with_a) as [[b d']|] eqn:Hr;
    [|vm_compute in Hr; discriminate Hr].
  assert (b = true) as ->
    by (vm_compute in Hr; injection Hr as <- _; reflexivity).
  exists d'. split; [reflexivity|]. split; [vm_compute; reflexivity|].
  apply (Remove_then_unresolved 1 "a" false Cases.with_a d');
    [discriminate | reflexivity | vm_compute; discriminate
    | vm_compute; discriminate
    | apply (bool_decide_unpack _); vm_compute; exact I
    | apply (bool_decide_unpack _); vm_compute; exact I
    | exact Hr].
Defined.

(** A table of plain files, one entry released, listed below /p. *)
Lemma ListAll_flat_witness :
  ListAll 1 Scenario.fresh Cases.flat "/p"
  = Some ["/p/a"%string; "/p/b"%string].
Proof.
  apply (ListAll_flat 0 Scenario.fresh Cases.flat "/p").
  apply (bool_decide_unpack _). vm_compute. exact I.
Defined.

Lemma Openfile_then_transfer_witness :
  ∃ t', Openfile "/a" Cases.with_a Scenario.no_handles = Some (1, t') ∧
        Write 1 t' = Some (OnHandle 13) ∧
        Write 1 Scenario.no_handles = Some Refused.
Proof.
  destruct (Openfile "/a" Cases.with_a Scenario.no_handles) as [[id t']|] eqn:Ho;
    [|vm_compute in Ho; discriminate Ho].
  assert (id = 1) as ->
    by (vm_compute in Ho; injection Ho as <- _; reflexivity).
  exists t'. split; [reflexivity|]. split; [|reflexivity].
  destruct (Openfile_then_transfer "/a" Cases.with_a Scenario.no_handles t' 1 Ho)
    as (s & Hres & Hw & _); [discriminate|].
  vm_compute in Hres. injection Hres as <-. exact Hw.
Defined.

Lemma Close_then_transfer_witness :
  ∃ t', Close 1 Cases.one_handle = Some (1, t') ∧
        Write 1 Cases.one_handle = Some (OnHandle 13) ∧
        Write 1 t' = None ∧ Close 1 t' = None.
Proof.
  destruct (Close 1 Cases.one_handle) as [[r t']|] eqn:Hc;
    [|vm_compute in Hc; discriminate Hc].
  assert (r = 1) as ->
    by (vm_compute in Hc; injection Hc as <- _; reflexivity).
  exists t'. split; [reflexivity|]. split; [reflexivity|].
  destruct (Close_then_transfer 1 Cases.one_handle t' Hc) as (Hw & _ & Hc2 & _).
  split; [exact Hw | exact Hc2].
Defined.

(** Open, close, open again, and a path that does not resolve. *)
Lemma descriptors_are_used_up_witness :
  ∃ t', run_fd Cases.with_a
          [FdOpen "/a"; FdClose 1; FdOpen "/a"; FdOpen "/nothere"]
          Scenario.no_handles = Some (2%nat, t') ∧
        null_slots Scenario.no_handles = 19%nat ∧ null_slots t' = 17%nat.
Proof.
  destruct (run_fd Cases.with_a _ Scenario.no_handles) as [[k t']|] eqn:Hrun;
    [|vm_compute in Hrun; discriminate Hrun].
  assert (k = 2%nat) as ->
    by (vm_compute in Hrun; injection Hrun as <- _; reflexivity).
  exists t'. split; [reflexivity|]. split; [reflexivity|].
  destruct (descriptors_are_used_up Cases.with_a _ Scenario.no_handles t' 2
              eq_refl Hrun) as [Hcount _].
  assert (Hn : null_slots Scenario.no_handles = 19%nat) by reflexivity.
  rewrite Hn in Hcount. lia.
Defined.


End MoreEvaluations.
